(** * simple-calculator: the expression pipeline of [script.js]

    A shallow embedding of [tokenize], [toRPN], [evalRPN] and
    [evaluateExpression], together with the ECMAScript built-ins they call
    ([Number], [String], [isFinite], [Math.round], the arithmetic of
    binary64 numbers), and the properties of the pipeline.

    - A JavaScript string is the list of its UTF-16 code units.
    - A JavaScript number is an IEEE-754 binary64 value, taken from the
      Standard Library's [SpecFloat] with precision 53 and [emax] 1024;
      [+ - * /] are its correctly rounded operations.
    - A [throw] is an [error] result; [Array.push]/[Array.pop] work at the
      end of the array, so the operator stack and the value stack are lists
      whose head is the top, and [output] grows at its tail. *)

From Stdlib Require Import ZArith NArith List String Ascii Bool Lia Permutation.
From Stdlib Require Import Floats.SpecFloat.
Import ListNotations.

#[local] Open Scope Z_scope.

(** ** Strings *)

Definition jsstring : Type := list N.

Definition cu (a : ascii) : N := N_of_ascii a.

Definition str (s : string) : jsstring := map cu (list_ascii_of_string s).

Fixpoint jsstring_eqb (a b : jsstring) : bool :=
  match a, b with
  | [], [] => true
  | x :: a', y :: b' => N.eqb x y && jsstring_eqb a' b'
  | _, _ => false
  end.

(** [/\s/]: WhiteSpace and LineTerminator code units. *)
Definition is_space (ch : N) : bool :=
  ((9 <=? ch) && (ch <=? 13))%N
  || existsb (N.eqb ch) [32; 160; 5760; 8232; 8233; 8239; 8287; 12288; 65279]%N
  || ((8192 <=? ch) && (ch <=? 8202))%N.

(** [/\d/] and [/[0-9]/]. *)
Definition is_digit (ch : N) : bool := ((48 <=? ch) && (ch <=? 57))%N.

Definition is_dot (ch : N) : bool := N.eqb ch (cu ".").

(** [/[0-9.]/]. *)
Definition is_numchar (ch : N) : bool := is_digit ch || is_dot ch.

Definition digit_val (ch : N) : Z := Z.of_N ch - 48.

Definition digit_char (d : Z) : N := Z.to_N (d + 48).

(** ** Numbers *)

Module JS.

Definition number : Type := spec_float.

Definition prec : Z := 53.
Definition emax : Z := 1024.

Definition NaN : number := S754_nan.
Definition zero : number := S754_zero false.
Definition add : number -> number -> number := SFadd prec emax.
Definition sub : number -> number -> number := SFsub prec emax.
Definition mul : number -> number -> number := SFmul prec emax.
Definition div : number -> number -> number := SFdiv prec emax.

(** [a === b] on numbers. *)
Definition eqb : number -> number -> bool := SFeqb.

Definition isFinite (x : number) : bool :=
  match x with
  | S754_zero _ | S754_finite _ _ _ => true
  | S754_infinity _ | S754_nan => false
  end.

Definition isNaN (x : number) : bool :=
  match x with S754_nan => true | _ => false end.

(** The number nearest to the rational [(-1)^neg * num / den], ties to
    even; an infinity when it is out of range. *)
Definition round_ratio (neg : bool) (num den : positive) : number :=
  SFdiv prec emax (S754_finite neg num 0) (S754_finite false den 0).

(** The number nearest to [(-1)^neg * m * 10^e10]. *)
Definition round_dec (neg : bool) (m : Z) (e10 : Z) : number :=
  match m with
  | Zpos p =>
      if 0 <=? e10 then round_ratio neg (p * Z.to_pos (10 ^ e10)) 1
      else round_ratio neg p (Z.to_pos (10 ^ (- e10)))
  | _ => S754_zero neg
  end.

Definition of_Z (z : Z) : number := round_dec (z <? 0) (Z.abs z) 0.

(** [Number.EPSILON] is [2^-52]. *)
Definition EPSILON : number := round_ratio false 1 (2 ^ 52).

(** *** [Number(text)]: StringToNumber *)

(** The longest prefix of decimal digits, as its value and its length, and
    the rest. *)
Fixpoint digits (s : jsstring) (acc : Z) (len : Z) : Z * Z * jsstring :=
  match s with
  | ch :: s' =>
      if is_digit ch then digits s' (10 * acc + digit_val ch) (len + 1)
      else (acc, len, s)
  | [] => (acc, len, s)
  end.

Fixpoint trim_start (s : jsstring) : jsstring :=
  match s with
  | ch :: s' => if is_space ch then trim_start s' else s
  | [] => []
  end.

Definition trim (s : jsstring) : jsstring :=
  rev (trim_start (rev (trim_start s))).

(** ExponentPart, optional: [e] or [E], an optional sign, DecimalDigits. *)
Definition exponent_part (s : jsstring) : option Z :=
  match s with
  | [] => Some 0
  | ch :: s' =>
      if N.eqb ch (cu "e") || N.eqb ch (cu "E") then
        let '(neg, s'') :=
          match s' with
          | c :: t =>
              if N.eqb c (cu "-") then (true, t)
              else if N.eqb c (cu "+") then (false, t)
              else (false, s')
          | [] => (false, s')
          end in
        match digits s'' 0 0 with
        | (v, len, []) => if 0 <? len then Some (if neg then - v else v) else None
        | _ => None
        end
      else None
  end.

(** StrUnsignedDecimalLiteral other than [Infinity]. *)
Definition unsigned_decimal (neg : bool) (s : jsstring) : number :=
  let '(ip, ilen, s1) := digits s 0 0 in
  let '(fp, flen, s2) :=
    match s1 with
    | ch :: t => if is_dot ch then digits t 0 0 else (0, 0, s1)
    | [] => (0, 0, s1)
    end in
  if 0 <? ilen + flen then
    match exponent_part s2 with
    | Some ex => round_dec neg (ip * 10 ^ flen + fp) (ex - flen)
    | None => NaN
    end
  else NaN.

Definition str_decimal (s : jsstring) : number :=
  let '(neg, s') :=
    match s with
    | ch :: t =>
        if N.eqb ch (cu "-") then (true, t)
        else if N.eqb ch (cu "+") then (false, t)
        else (false, s)
    | [] => (false, s)
    end in
  if jsstring_eqb s' (str "Infinity") then S754_infinity neg
  else unsigned_decimal neg s'.

(** NonDecimalIntegerLiteral: [0x], [0o], [0b] and their digits. *)
Definition radix_digit (radix : Z) (ch : N) : option Z :=
  let d :=
    if is_digit ch then digit_val ch
    else if ((97 <=? ch) && (ch <=? 102))%N then Z.of_N ch - 87
    else if ((65 <=? ch) && (ch <=? 70))%N then Z.of_N ch - 55
    else radix in
  if d <? radix then Some d else None.

Fixpoint radix_digits (radix : Z) (s : jsstring) (acc : Z) : option Z :=
  match s with
  | [] => Some acc
  | ch :: s' =>
      match radix_digit radix ch with
      | Some d => radix_digits radix s' (radix * acc + d)
      | None => None
      end
  end.

Definition non_decimal (s : jsstring) : option number :=
  match s with
  | z :: x :: (_ :: _) as ds =>
      if N.eqb z (cu "0") then
        let radix :=
          if N.eqb x (cu "x") || N.eqb x (cu "X") then 16
          else if N.eqb x (cu "o") || N.eqb x (cu "O") then 8
          else if N.eqb x (cu "b") || N.eqb x (cu "B") then 2
          else 0 in
        if radix =? 0 then None
        else
          match radix_digits radix ds 0 with
          | Some v => Some (round_dec false v 0)
          | None => Some NaN
          end
      else None
  | _ => None
  end.

Definition Number (text : jsstring) : number :=
  match trim text with
  | [] => zero
  | t =>
      match non_decimal t with
      | Some v => v
      | None => str_decimal t
      end
  end.

(** *** [Math.round] *)

(** The integer nearest to [x], the larger one on a tie; [-0] for
    [-0.5 <= x < 0]. *)
Definition Math_round (x : number) : number :=
  match x with
  | S754_finite s m e =>
      if 0 <=? e then x
      else
        let q := Z.shiftr (2 * (if s then Zneg m else Zpos m) + 2 ^ (- e)) (1 - e) in
        round_dec s (Z.abs q) 0
  | _ => x
  end.

(** *** [String(x)]: Number::toString, radix 10 *)

(** The decimal digits of [z], most significant first, padded to [k]. *)
Fixpoint decimal_digits (k : nat) (z : Z) (acc : jsstring) : jsstring :=
  match k with
  | O => acc
  | S k' => decimal_digits k' (z / 10) (digit_char (z mod 10) :: acc)
  end.

Fixpoint decimal_length (fuel : nat) (z : Z) : nat :=
  match fuel with
  | O => O
  | S fuel' => if z <? 10 then 1%nat else S (decimal_length fuel' (z / 10))
  end.

(** A non-negative integer in decimal. *)
Definition decimal (z : Z) : jsstring :=
  decimal_digits (decimal_length (S (Z.to_nat z)) z) z [].

(** The integer [n0] with [10^(n0-1) <= num/den < 10^n0], searched upwards
    from a lower bound [n]; [magnitude_start] is such a bound, from the
    binary lengths of [num] and [den]. *)
Fixpoint magnitude (fuel : nat) (num den : Z) (n : Z) : Z :=
  match fuel with
  | O => n
  | S fuel' =>
      let below := if 0 <=? n then num <? den * 10 ^ n else num * 10 ^ (- n) <? den in
      if below then n else magnitude fuel' num den (n + 1)
  end.

Definition magnitude_start (num den : Z) : Z :=
  (Z.log2 num - Z.log2 den - 1) * 30103 / 100000 - 1.

(** For a positive number [x = m * 2^e], the integers [n], [k], [s] of
    Number::toString: [10^(k-1) <= s < 10^k], [s * 10^(n-k)] rounds to [x],
    [k] is as small as possible and, for that [k], [s * 10^(n-k)] is as
    close to [x] as possible (the even [s] on a tie). For a given [k] only
    the two multiples of [10^(n0-k)] around [x] can qualify. *)
Definition candidate (x : number) (num den : Z) (n0 : Z) (k : Z) : option (Z * Z) :=
  let sh := k - n0 in
  let num' := if 0 <=? sh then num * 10 ^ sh else num in
  let den' := if 0 <=? sh then den else den * 10 ^ (- sh) in
  let lo := num' / den' in
  let hi := lo + 1 in
  let ok_lo := eqb (round_dec false lo (n0 - k)) x in
  let ok_hi := eqb (round_dec false hi (n0 - k)) x in
  let pick_hi :=
    if ok_lo && ok_hi then
      match 2 * num' ?= (2 * lo + 1) * den' with
      | Lt => false
      | Gt => true
      | Eq => Z.odd lo
      end
    else ok_hi in
  if ok_lo || ok_hi then
    if pick_hi then
      if hi =? 10 ^ k then Some (n0 + 1, 10 ^ (k - 1)) else Some (n0, hi)
    else Some (n0, lo)
  else None.

Fixpoint shortest (fuel : nat) (x : number) (num den : Z) (n0 : Z) (k : Z) : Z * Z * Z :=
  match candidate x num den n0 k with
  | Some (n, s) => (n, k, s)
  | None =>
      match fuel with
      | O => (n0, k, num * 10 ^ (k - n0) / den)
      | S fuel' => shortest fuel' x num den n0 (k + 1)
      end
  end.

Definition repeat0 (n : Z) : jsstring := repeat (cu "0") (Z.to_nat n).

Definition format (n k s : Z) : jsstring :=
  let ds := decimal_digits (Z.to_nat k) s [] in
  if (k <=? n) && (n <=? 21) then ds ++ repeat0 (n - k)
  else if (0 <? n) && (n <=? 21) then
    firstn (Z.to_nat n) ds ++ str "." ++ skipn (Z.to_nat n) ds
  else if (-6 <? n) && (n <=? 0) then str "0." ++ repeat0 (- n) ++ ds
  else
    let ex := str (if n - 1 <? 0 then "-" else "+") ++ decimal (Z.abs (n - 1)) in
    if k =? 1 then ds ++ str "e" ++ ex
    else firstn 1 ds ++ str "." ++ skipn 1 ds ++ str "e" ++ ex.

Definition String (x : number) : jsstring :=
  match x with
  | S754_nan => str "NaN"
  | S754_zero _ => str "0"
  | S754_infinity s => (if s then str "-" else []) ++ str "Infinity"
  | S754_finite s m e =>
      let num := if 0 <=? e then Zpos m * 2 ^ e else Zpos m in
      let den := if 0 <=? e then 1 else 2 ^ (- e) in
      let n0 := magnitude 700 num den (magnitude_start num den) in
      let '(n, k, d) := shortest 20 (S754_finite false m e) num den n0 1 in
      (if s then str "-" else []) ++ format n k d
  end.

End JS.

(** ** Errors *)

(** One constructor per [throw new Error(...)] of the pipeline. *)
Inductive error : Type :=
| InvalidCharacter (ch : N)
| MismatchedParentheses
| InvalidNumber
| PercentError
| OperatorError
| DivisionByZero
| UnknownOperator
| UnexpectedToken
| InvalidExpression
| MathError.

Inductive result (A : Type) : Type :=
| ok (a : A)
| throw (e : error).

Arguments ok {A} a.
Arguments throw {A} e.

Definition bind {A B : Type} (r : result A) (f : A -> result B) : result B :=
  match r with
  | ok a => f a
  | throw e => throw e
  end.

Notation "x <- r ;; k" := (bind r (fun x => k))
  (at level 61, r at next level, right associativity).

(** ** Tokens *)

(** The objects [{type, value}] built by [tokenize]; [type] is one of
    ['number'], ['operator'], ['left_paren'], ['right_paren'], ['percent']. *)
Inductive token : Type :=
| number (value : jsstring)
| operator (value : jsstring)
| left_paren
| right_paren
| percent.

Definition is_number (t : token) : bool :=
  match t with number _ => true | _ => false end.

Definition is_percent (t : token) : bool :=
  match t with percent => true | _ => false end.

Definition is_operator (t : token) : bool :=
  match t with operator _ => true | _ => false end.

Definition is_left_paren (t : token) : bool :=
  match t with left_paren => true | _ => false end.

(** ** [tokenize] *)

Definition is_opchar (ch : N) : bool :=
  N.eqb ch (cu "+") || N.eqb ch (cu "-") || N.eqb ch (cu "*") || N.eqb ch (cu "/").

(** The test that makes a ['-'] unary: no token yet, or the last token is
    an operator whose value is not ['%'], or a left parenthesis. *)
Definition unary_position (tokens : list token) : bool :=
  match rev tokens with
  | [] => true
  | operator v :: _ => negb (jsstring_eqb v (str "%"))
  | left_paren :: _ => true
  | _ => false
  end.

(** The run of [[0-9.]] at the head of a string, and what follows it. *)
Fixpoint take_num (s : jsstring) : jsstring :=
  match s with
  | c :: s' => if is_numchar c then c :: take_num s' else []
  | [] => []
  end.

Fixpoint drop_num (s : jsstring) : jsstring :=
  match s with
  | c :: s' => if is_numchar c then drop_num s' else s
  | [] => []
  end.

(** The loop [while (i < expr.length)], on the characters from [i] on, with
    the tokens pushed so far. The inner loop collects the run of [[0-9.]]. *)
Fixpoint tokenize_from (expr : jsstring) (tokens : list token) : result (list token) :=
  match expr with
  | [] => ok tokens
  | ch :: rest =>
      if is_space ch then tokenize_from rest tokens
      else if is_numchar ch then
        (fix run (num : jsstring) (r : jsstring) {struct r} : result (list token) :=
           match r with
           | c :: r' =>
               if is_numchar c then run (num ++ [c]) r'
               else tokenize_from r (tokens ++ [number num])
           | [] => ok (tokens ++ [number num])
           end) [ch] rest
      else if is_opchar ch then
        let tokens' :=
          if N.eqb ch (cu "-") && unary_position tokens
          then tokens ++ [number (str "0")] else tokens in
        tokenize_from rest (tokens' ++ [operator [ch]])
      else if N.eqb ch (cu "(") then tokenize_from rest (tokens ++ [left_paren])
      else if N.eqb ch (cu ")") then tokenize_from rest (tokens ++ [right_paren])
      else if N.eqb ch (cu "%") then tokenize_from rest (tokens ++ [percent])
      else throw (InvalidCharacter ch)
  end.

Definition tokenize (expr : jsstring) : result (list token) :=
  tokenize_from expr [].

(** ** [toRPN] *)

(** [precedence[o]]: a number for the four keys of the table; for any other
    key the lookup is not a number and every comparison with it is false. *)
Definition precedence (o : jsstring) : option Z :=
  if jsstring_eqb o (str "+") then Some 1
  else if jsstring_eqb o (str "-") then Some 1
  else if jsstring_eqb o (str "*") then Some 2
  else if jsstring_eqb o (str "/") then Some 2
  else None.

(** [isLeftAssoc[o]] as a condition: true for the four keys of the table.
    With any other key the test below only reaches comparisons of
    [precedence[o]], which are false. *)
Definition isLeftAssoc (o : jsstring) : bool :=
  jsstring_eqb o (str "+") || jsstring_eqb o (str "-")
  || jsstring_eqb o (str "*") || jsstring_eqb o (str "/").

Definition prec_le (a b : option Z) : bool :=
  match a, b with Some x, Some y => x <=? y | _, _ => false end.

Definition prec_lt (a b : option Z) : bool :=
  match a, b with Some x, Some y => x <? y | _, _ => false end.

(** The condition under which the operator [o2] on top of the stack is
    popped before [o1] is pushed. *)
Definition pops (o1 o2 : jsstring) : bool :=
  (isLeftAssoc o1 && prec_le (precedence o1) (precedence o2))
  || (negb (isLeftAssoc o1) && prec_lt (precedence o1) (precedence o2)).

(** The parser's two arrays. *)
Record rpn_state : Type := mk_rpn { output : list token; ops : list token }.

(** [while (ops.length > 0)] of the operator case. *)
Fixpoint pop_operators (o1 : jsstring) (out : list token) (stack : list token) : rpn_state :=
  match stack with
  | operator o2 :: stack' =>
      if pops o1 o2 then pop_operators o1 (out ++ [operator o2]) stack'
      else mk_rpn out stack
  | _ => mk_rpn out stack
  end.

(** [while (ops.length > 0)] of the right parenthesis case, and the test of
    [found] after it. *)
Fixpoint pop_to_left_paren (out : list token) (stack : list token) : result rpn_state :=
  match stack with
  | [] => throw MismatchedParentheses
  | left_paren :: stack' => ok (mk_rpn out stack')
  | top :: stack' => pop_to_left_paren (out ++ [top]) stack'
  end.

(** The body of [tokens.forEach]. *)
Definition rpn_step (st : rpn_state) (t : token) : result rpn_state :=
  match t with
  | number _ => ok (mk_rpn (output st ++ [t]) (ops st))
  | percent => ok (mk_rpn (output st ++ [t]) (ops st))
  | operator o1 =>
      let st' := pop_operators o1 (output st) (ops st) in
      ok (mk_rpn (output st') (t :: ops st'))
  | left_paren => ok (mk_rpn (output st) (t :: ops st))
  | right_paren => pop_to_left_paren (output st) (ops st)
  end.

Fixpoint rpn_scan (tokens : list token) (st : rpn_state) : result rpn_state :=
  match tokens with
  | [] => ok st
  | t :: tokens' => st' <- rpn_step st t ;; rpn_scan tokens' st'
  end.

(** The final [while (ops.length > 0)]. *)
Fixpoint drain (out : list token) (stack : list token) : result (list token) :=
  match stack with
  | [] => ok out
  | top :: stack' =>
      match top with
      | left_paren | right_paren => throw MismatchedParentheses
      | _ => drain (out ++ [top]) stack'
      end
  end.

Definition toRPN (tokens : list token) : result (list token) :=
  st <- rpn_scan tokens (mk_rpn [] []) ;;
  drain (output st) (ops st).

(** ** [evalRPN] *)

Definition hundred : JS.number := JS.of_Z 100.

(** The [switch] on the operator, [b] popped first. *)
Definition apply_operator (o : jsstring) (a b : JS.number) : result JS.number :=
  if jsstring_eqb o (str "+") then ok (JS.add a b)
  else if jsstring_eqb o (str "-") then ok (JS.sub a b)
  else if jsstring_eqb o (str "*") then ok (JS.mul a b)
  else if jsstring_eqb o (str "/") then
    if JS.eqb b JS.zero then throw DivisionByZero else ok (JS.div a b)
  else throw UnknownOperator.

(** The body of [for (const token of rpn)]. *)
Definition eval_step (stack : list JS.number) (t : token) : result (list JS.number) :=
  match t with
  | number value =>
      let n := JS.Number value in
      if negb (JS.isFinite n) then throw InvalidNumber else ok (n :: stack)
  | percent =>
      match stack with
      | v :: stack' => ok (JS.div v hundred :: stack')
      | [] => throw PercentError
      end
  | operator o =>
      match stack with
      | b :: a :: stack' => res <- apply_operator o a b ;; ok (res :: stack')
      | _ => throw OperatorError
      end
  | _ => throw UnexpectedToken
  end.

Fixpoint eval_scan (rpn : list token) (stack : list JS.number) : result (list JS.number) :=
  match rpn with
  | [] => ok stack
  | t :: rpn' => stack' <- eval_step stack t ;; eval_scan rpn' stack'
  end.

Definition evalRPN (rpn : list token) : result JS.number :=
  stack <- eval_scan rpn [] ;;
  match stack with
  | [v] => ok v
  | _ => throw InvalidExpression
  end.

(** ** [evaluateExpression] *)

Definition e12 : JS.number := JS.of_Z (10 ^ 12).

(** [Math.round((result + Number.EPSILON) * 1e12) / 1e12]. *)
Definition round12 (x : JS.number) : JS.number :=
  JS.div (JS.Math_round (JS.mul (JS.add x JS.EPSILON) e12)) e12.

(** The body of the [try] block, up to [String(result)]: the result string,
    or the error that is thrown. *)
Definition evaluate (current : jsstring) : result jsstring :=
  tokens <- tokenize current ;;
  rpn <- toRPN tokens ;;
  res <- evalRPN rpn ;;
  if negb (JS.isFinite res) || JS.isNaN res then throw MathError
  else ok (JS.String (round12 res)).

(** The calculator's variables [current] and [history], and the text of the
    display element. *)
Record calc : Type := mk_calc {
  current : jsstring;
  history : list (jsstring * jsstring);
  display : jsstring
}.

(** [history.push(...); if (history.length > 200) history.shift()]. *)
Definition push_history (h : list (jsstring * jsstring)) (expr res : jsstring)
  : list (jsstring * jsstring) :=
  let h' := h ++ [(expr, res)] in
  if (200 <? List.length h')%nat then tl h' else h'.

Definition updateDisplay (c : calc) : calc :=
  mk_calc (current c) (history c)
    (match current c with [] => str "0" | _ => current c end).

Definition evaluateExpression (c : calc) : calc :=
  match current c with
  | [] => c
  | _ =>
      match evaluate (current c) with
      | ok res =>
          updateDisplay (mk_calc res (push_history (history c) (current c) res) (display c))
      | throw _ => mk_calc [] (history c) (str "Error")
      end
  end.

(** ** Predicates of the statements *)

(** The data-model invariant of a number token's text: at most one ['.']
    and at least one digit. *)
Definition count_dots (v : jsstring) : nat := List.length (filter is_dot v).

Definition number_invariant (v : jsstring) : bool :=
  (count_dots v <=? 1)%nat && existsb is_digit v.

(** What the tokenizer guarantees of it: a non-empty text over [[0-9.]]. *)
Definition number_text (v : jsstring) : bool :=
  match v with [] => false | _ => forallb is_numchar v end.

Definition numbers_ok (tokens : list token) : Prop :=
  forall v, In (number v) tokens -> number_text v = true.

(** The characters [tokenize] accepts. *)
Definition is_calc_char (ch : N) : bool :=
  is_space ch || is_numchar ch || is_opchar ch
  || N.eqb ch (cu "(") || N.eqb ch (cu ")") || N.eqb ch (cu "%").

(** The tokens [toRPN] sends straight to [output], and those it stacks. *)
Definition operand (t : token) : bool := is_number t || is_percent t.

Definition stackable (t : token) : bool := is_operator t || is_left_paren t.

(** The number nearest to the decimal [k / 10^j]. *)
Definition decimal_value (k j : Z) : JS.number :=
  JS.round_dec (k <? 0) (Z.abs k) (- j).

(** [r] is returned unchanged when it is evaluated. *)
Definition reevaluates (r : jsstring) : bool :=
  match evaluate r with
  | ok r' => jsstring_eqb r' r
  | throw _ => false
  end.

(** The integers from [lo], [n] of them. *)
Definition Zrange (lo : Z) (n : nat) : list Z :=
  map (fun i => lo + Z.of_nat i) (seq 0 n).

(** ** The input handlers *)

(** The separators of [current.split(/[\+\-\*\/\(\)%]/)]. *)
Definition is_sep (ch : N) : bool :=
  is_opchar ch || N.eqb ch (cu "(") || N.eqb ch (cu ")") || N.eqb ch (cu "%").

(** [s.split(/[\+\-\*\/\(\)%]/)]: the pieces between the separators; one
    empty piece for the empty string. *)
Fixpoint split (s : jsstring) : list jsstring :=
  match s with
  | [] => [[]]
  | ch :: s' =>
      if is_sep ch then [] :: split s'
      else
        match split s' with
        | part :: parts => (ch :: part) :: parts
        | [] => [[ch]]
        end
  end.

(** [parts[parts.length - 1]]. *)
Definition last_part (s : jsstring) : jsstring := last (split s) [].

(** [/^\d$/] and [/^[0-9]$/]. *)
Definition single_digit (val : jsstring) : bool :=
  match val with [ch] => is_digit ch | _ => false end.

Definition is_empty (s : jsstring) : bool :=
  match s with [] => true | _ => false end.

Definition set_current (c : calc) (s : jsstring) : calc :=
  mk_calc s (history c) (display c).

Definition appendValue (val : jsstring) (c : calc) : calc :=
  if single_digit val && jsstring_eqb (last_part (current c)) (str "0") then
    updateDisplay (set_current c (removelast (current c) ++ val))
  else if jsstring_eqb val (str ".") && existsb is_dot (last_part (current c)) then c
  else
    let val' :=
      if jsstring_eqb val (str ".") && is_empty (last_part (current c))
      then str "0." else val in
    if jsstring_eqb val' (str "%") && is_empty (current c) then c
    else updateDisplay (set_current c (current c ++ val')).

(** [current = current.slice(0, -1)]. *)
Definition backspace (c : calc) : calc :=
  updateDisplay (set_current c (removelast (current c))).

Definition clearAll (c : calc) : calc :=
  updateDisplay (set_current c []).

(** The click and [Enter] handlers of a history item. *)
Definition recall (expr : jsstring) (c : calc) : calc :=
  updateDisplay (set_current c expr).

(** The click handler of the keys: [action] and [val] are the button's
    [data-action] and [data-value], when present. *)
Definition click (action val : option jsstring) (c : calc) : calc :=
  let act (a : string) := match action with Some x => jsstring_eqb x (str a) | None => false end in
  if act "clear"%string then clearAll c
  else if act "backspace"%string then backspace c
  else if act "equals"%string then evaluateExpression c
  else match val with Some v => appendValue v c | None => c end.

(** The [keydown] handler of the window. *)
Definition keydown (key : jsstring) (c : calc) : calc :=
  let on (k : string) := jsstring_eqb key (str k) in
  if single_digit key then appendValue key c
  else if on "."%string then appendValue (str ".") c
  else if on "+"%string || on "-"%string || on "*"%string || on "/"%string then appendValue key c
  else if on "%"%string then appendValue (str "%") c
  else if on "("%string || on ")"%string then appendValue key c
  else if on "Enter"%string || on "="%string then evaluateExpression c
  else if on "Backspace"%string then backspace c
  else if on "Escape"%string then clearAll c
  else c.

(** ** Predicates of the further statements *)

Definition is_right_paren (t : token) : bool :=
  match t with right_paren => true | _ => false end.

Definition not_paren (t : token) : bool :=
  negb (is_left_paren t || is_right_paren t).

(** The nesting depth after a list of tokens, from depth [d]; none when a
    right parenthesis has no left one to close. *)
Fixpoint paren_depth (tokens : list token) (d : nat) : option nat :=
  match tokens with
  | [] => Some d
  | left_paren :: tokens' => paren_depth tokens' (S d)
  | right_paren :: tokens' =>
      match d with
      | O => None
      | S d' => paren_depth tokens' d'
      end
  | _ :: tokens' => paren_depth tokens' d
  end.

Definition balanced (tokens : list token) : bool :=
  match paren_depth tokens 0 with
  | Some O => true
  | _ => false
  end.

Definition count_left_parens (stack : list token) : nat :=
  List.length (filter is_left_paren stack).

(** The operator tokens that [evalRPN] knows. *)
Definition known_operator (t : token) : bool :=
  match t with
  | operator v => match v with [ch] => is_opchar ch | _ => false end
  | _ => true
  end.

(** The output with what is still stacked, parentheses left out. *)
Definition pending (st : rpn_state) : list token :=
  output st ++ filter not_paren (ops st).

(** The tokens after which a ['-'] is a subtraction. *)
Definition left_operand (t : token) : bool :=
  is_number t || is_right_paren t || is_percent t.

(** Every ['-'] of a token list has a token before it, which is a number,
    a right parenthesis or a percent. *)
Definition minus_has_operand (tokens : list token) : Prop :=
  forall pre post,
    tokens = pre ++ operator (str "-") :: post ->
    exists pre' t, pre = pre' ++ [t] /\ left_operand t = true.

(** The errors that an evaluation can end with. *)
Definition reachable_error (e : error) : bool :=
  match e with
  | UnknownOperator | UnexpectedToken => false
  | _ => true
  end.

(** What [updateDisplay] shows for a value of [current]. *)
Definition shown (s : jsstring) : jsstring :=
  match s with [] => str "0" | _ => s end.

(** The display shows the input, or [Error] over an emptied input. *)
Definition display_ok (c : calc) : Prop :=
  display c = shown (current c)
  \/ (current c = [] /\ display c = str "Error").

(** Every recorded pair is an expression with its result. *)
Definition history_sound (h : list (jsstring * jsstring)) : Prop :=
  forall expr res, In (expr, res) h -> evaluate expr = ok res.

(** A piece does not begin with a zero followed by a digit. *)
Definition no_leading_zero (part : jsstring) : bool :=
  match part with
  | z :: d :: _ => negb (N.eqb z (cu "0") && is_digit d)
  | _ => true
  end.

Definition one_dot (part : jsstring) : bool := (count_dots part <=? 1)%nat.

(** A piece of a typed input: empty, or digits with at most one dot, a
    digit first, and no zero before a first digit. *)
Definition well_formed_part (part : jsstring) : bool :=
  match part with
  | [] => true
  | d :: _ =>
      is_digit d && forallb is_numchar part && one_dot part
      && no_leading_zero part
  end.

Definition typed (s : jsstring) : Prop :=
  Forall (fun part => well_formed_part part = true) (split s).

(** The keys that the [keydown] handler evaluates on. *)
Definition evaluates (key : jsstring) : bool :=
  jsstring_eqb key (str "Enter") || jsstring_eqb key (str "=").

(** * Properties *)

(** ** The built-ins on some known values *)

Example Number_tenth :
  JS.Number (str "0.1") = S754_finite false 7205759403792794 (-56).
Proof. vm_compute; reflexivity. Qed.

Example Number_malformed :
  JS.Number (str "1.2.3") = JS.NaN /\ JS.Number (str ".") = JS.NaN
  /\ JS.Number (str "5.") = JS.of_Z 5 /\ JS.Number (str ".5") = JS.Number (str "0.5").
Proof. repeat split; vm_compute; reflexivity. Qed.

Example String_sum :
  JS.String (JS.add (JS.Number (str "0.1")) (JS.Number (str "0.2")))
  = str "0.30000000000000004".
Proof. vm_compute; reflexivity. Qed.

Example String_notations :
  JS.String (JS.Number (str "123456789012345680000")) = str "123456789012345680000"
  /\ JS.String (JS.Number (str "1000000000000000000000")) = str "1e+21"
  /\ JS.String (JS.Number (str "0.000001")) = str "0.000001"
  /\ JS.String (JS.Number (str "0.00000015")) = str "1.5e-7"
  /\ JS.String (JS.div (JS.of_Z (-1)) (JS.of_Z 3)) = str "-0.3333333333333333".
Proof. repeat split; vm_compute; reflexivity. Qed.

Example Math_round_ties :
  JS.Math_round (JS.Number (str "2.5")) = JS.of_Z 3
  /\ JS.Math_round (JS.sub JS.zero (JS.Number (str "2.5"))) = JS.of_Z (-2)
  /\ JS.Math_round (JS.sub JS.zero (JS.Number (str "0.5"))) = S754_zero true.
Proof. repeat split; vm_compute; reflexivity. Qed.

(** The other examples of the specification. *)
Example evaluate_examples :
  evaluate (str "0.1+0.2") = ok (str "0.3")
  /\ evaluate (str "1+a") = throw (InvalidCharacter (cu "a"))
  /\ evaluate (str "%") = throw PercentError
  /\ evaluate (str "1.2.3") = throw InvalidNumber
  /\ evaluate (str "1 2") = throw InvalidExpression.
Proof. repeat split; vm_compute; reflexivity. Qed.

(** ** Strings and the error monad *)

Lemma jsstring_eqb_eq (a b : jsstring) : jsstring_eqb a b = true <-> a = b.
Proof.
  revert b; induction a as [|x a IH]; intros [|y b]; simpl; split;
    try congruence; try reflexivity.
  - intros H. apply andb_true_iff in H as [Hx Hab].
    apply N.eqb_eq in Hx. apply IH in Hab. congruence.
  - intros H. injection H as -> ->.
    rewrite N.eqb_refl. simpl. now apply IH.
Qed.

Lemma bind_ok {A B : Type} (r : result A) (f : A -> result B) (b : B) :
  bind r f = ok b -> exists a, r = ok a /\ f a = ok b.
Proof. destruct r as [a|e]; simpl; [eauto | discriminate]. Qed.

(** ** The tokenizer, one character at a time *)

Lemma drop_num_length (s : jsstring) : (List.length (drop_num s) <= List.length s)%nat.
Proof.
  induction s as [|c s IH]; simpl; [lia|].
  destruct (is_numchar c); simpl; lia.
Qed.

Lemma take_num_numchars (s : jsstring) : forallb is_numchar (take_num s) = true.
Proof.
  induction s as [|c s IH]; simpl; [reflexivity|].
  destruct (is_numchar c) eqn:Hc; simpl; [now rewrite Hc|reflexivity].
Qed.

Lemma take_drop_num (s : jsstring) : take_num s ++ drop_num s = s.
Proof.
  induction s as [|c s IH]; simpl; [reflexivity|].
  destruct (is_numchar c); simpl; [now rewrite IH|reflexivity].
Qed.

Lemma space_not_numchar (ch : N) : is_space ch = true -> is_numchar ch = false.
Proof.
  unfold is_space, is_numchar, is_digit, is_dot, cu. simpl.
  intros H.
  destruct (N.leb_spec 48 ch), (N.leb_spec ch 57), (N.eqb_spec ch 46);
    simpl; try reflexivity; exfalso;
    repeat (apply orb_true_iff in H as [H|H]);
    repeat (apply andb_true_iff in H as [? H]);
    repeat match goal with
           | H : (_ <=? _)%N = true |- _ => apply N.leb_le in H
           | H : (_ =? _)%N = true |- _ => apply N.eqb_eq in H
           | H : false = true |- _ => discriminate H
           end; lia.
Qed.

(** The inner loop of [tokenize] pushes the whole run as one number token
    and resumes after it. *)
Lemma tokenize_from_number (ch : N) (rest : jsstring) (tokens : list token) :
  is_numchar ch = true ->
  tokenize_from (ch :: rest) tokens =
  tokenize_from (drop_num rest) (tokens ++ [number (ch :: take_num rest)]).
Proof.
  intros Hn.
  assert (Hs : is_space ch = false).
  { destruct (is_space ch) eqn:E; [|reflexivity].
    apply space_not_numchar in E. congruence. }
  simpl. rewrite Hs, Hn.
  change (ch :: take_num rest) with ([ch] ++ take_num rest).
  generalize [ch] as num.
  induction rest as [|c r IH]; intros num; simpl.
  - now rewrite app_nil_r.
  - destruct (is_numchar c) eqn:Hc.
    + rewrite IH. now rewrite <- app_assoc.
    + rewrite app_nil_r. simpl. now rewrite Hc.
Qed.

(** Every other character is handled by one branch of the loop body. *)
Lemma tokenize_from_other (ch : N) (rest : jsstring) (tokens : list token) :
  is_numchar ch = false ->
  tokenize_from (ch :: rest) tokens =
  if is_space ch then tokenize_from rest tokens
  else if is_opchar ch then
    tokenize_from rest
      ((if N.eqb ch (cu "-") && unary_position tokens
        then tokens ++ [number (str "0")] else tokens) ++ [operator [ch]])
  else if N.eqb ch (cu "(") then tokenize_from rest (tokens ++ [left_paren])
  else if N.eqb ch (cu ")") then tokenize_from rest (tokens ++ [right_paren])
  else if N.eqb ch (cu "%") then tokenize_from rest (tokens ++ [percent])
  else throw (InvalidCharacter ch).
Proof. intros Hn. simpl. now rewrite Hn. Qed.

(** ** The texts of number tokens *)

Lemma numbers_ok_app (tokens more : list token) :
  numbers_ok tokens -> numbers_ok more -> numbers_ok (tokens ++ more).
Proof.
  intros H1 H2 v Hv. apply in_app_or in Hv as [Hv|Hv]; auto.
Qed.

Lemma numbers_ok_single (t : token) :
  match t with number v => number_text v = true | _ => True end ->
  numbers_ok [t].
Proof.
  intros H v [Hv|[]]. now subst t.
Qed.

(** Closes [numbers_ok (tokens ++ [t1] ++ ...)] for pushed tokens whose
    texts compute. *)
Ltac push_ok :=
  repeat (apply numbers_ok_app; [|now apply numbers_ok_single]); assumption.

Lemma tokenize_from_numbers_ok (n : nat) :
  forall expr tokens tokens',
    (List.length expr <= n)%nat ->
    numbers_ok tokens ->
    tokenize_from expr tokens = ok tokens' ->
    numbers_ok tokens'.
Proof.
  induction n as [|n IH]; intros [|ch rest] tokens tokens' Hlen Hok Htok;
    simpl in Hlen; try lia.
  - simpl in Htok. now injection Htok as <-.
  - simpl in Htok. now injection Htok as <-.
  - destruct (is_numchar ch) eqn:Hn.
    + rewrite tokenize_from_number in Htok by assumption.
      apply IH in Htok; auto.
      * pose proof (drop_num_length rest). lia.
      * apply numbers_ok_app; auto. apply numbers_ok_single.
        unfold number_text. simpl. rewrite Hn. apply take_num_numchars.
    + rewrite tokenize_from_other in Htok by assumption.
      assert (Hrest : (List.length rest <= n)%nat) by lia.
      destruct (is_space ch); [eauto|].
      destruct (is_opchar ch).
      { apply IH in Htok; auto. destruct (_ && _); push_ok. }
      destruct (N.eqb ch (cu "(")); [apply IH in Htok; auto; push_ok|].
      destruct (N.eqb ch (cu ")")); [apply IH in Htok; auto; push_ok|].
      destruct (N.eqb ch (cu "%")); [|discriminate].
      apply IH in Htok; auto; push_ok.
Qed.

(** ** Characters outside the calculator's alphabet *)

Lemma calc_char_numchar (ch : N) : is_numchar ch = true -> is_calc_char ch = true.
Proof.
  unfold is_calc_char. intros ->. now rewrite orb_true_r.
Qed.

Lemma take_num_calc_chars (s : jsstring) (c : N) :
  In c (take_num s) -> is_calc_char c = true.
Proof.
  intros Hin. apply calc_char_numchar.
  pose proof (take_num_numchars s) as H.
  rewrite forallb_forall in H. now apply H.
Qed.

(** A string with a character that [tokenize] does not know is rejected,
    whatever tokens were pushed before. *)
Lemma tokenize_from_invalid (n : nat) :
  forall expr tokens,
    (List.length expr <= n)%nat ->
    (exists c, In c expr /\ is_calc_char c = false) ->
    exists c, is_calc_char c = false /\
              tokenize_from expr tokens = throw (InvalidCharacter c).
Proof.
  induction n as [|n IH]; intros [|ch rest] tokens Hlen (c & Hin & Hc);
    simpl in Hlen; try lia; try contradiction.
  destruct (is_numchar ch) eqn:Hn.
  - rewrite tokenize_from_number by assumption.
    apply IH; [pose proof (drop_num_length rest); lia|].
    exists c. split; [|assumption].
    destruct Hin as [->|Hin].
    + apply calc_char_numchar in Hn. congruence.
    + rewrite <- (take_drop_num rest) in Hin.
      apply in_app_or in Hin as [Hin|Hin]; [|assumption].
      apply take_num_calc_chars in Hin. congruence.
  - rewrite tokenize_from_other by assumption.
    assert (Hrest : (List.length rest <= n)%nat) by lia.
    assert (Hstep : is_calc_char ch = true ->
                    exists c, In c rest /\ is_calc_char c = false).
    { intros Hch. exists c. split; [|assumption].
      destruct Hin as [->|Hin]; [congruence|assumption]. }
    destruct (is_space ch) eqn:E1.
    { apply IH; auto. apply Hstep. unfold is_calc_char. now rewrite E1. }
    destruct (is_opchar ch) eqn:E2.
    { apply IH; auto. apply Hstep. unfold is_calc_char. now rewrite E1, Hn, E2. }
    destruct (N.eqb ch (cu "(")) eqn:E3.
    { apply IH; auto. apply Hstep. unfold is_calc_char.
      now rewrite E1, Hn, E2, E3. }
    destruct (N.eqb ch (cu ")")) eqn:E4.
    { apply IH; auto. apply Hstep. unfold is_calc_char.
      now rewrite E1, Hn, E2, E3, E4. }
    destruct (N.eqb ch (cu "%")) eqn:E5.
    { apply IH; auto. apply Hstep. unfold is_calc_char.
      now rewrite E1, Hn, E2, E3, E4, E5. }
    exists ch. split; [|reflexivity].
    unfold is_calc_char. now rewrite E1, Hn, E2, E3, E4, E5.
Qed.

(** ** The parser's operator stack and output *)

Section Parser.

(** A class of tokens that the parser never stacks: numbers, percents, or
    both. *)
Variable p : token -> bool.
Hypothesis p_operand : forall t, p t = true -> operand t = true.

Lemma p_stackable (t : token) : stackable t = true -> p t = false.
Proof.
  intros Hs. destruct (p t) eqn:Hp; [|reflexivity].
  apply p_operand in Hp. destruct t; discriminate.
Qed.

Lemma filter_snoc_stackable (out : list token) (t : token) :
  stackable t = true -> filter p (out ++ [t]) = filter p out.
Proof.
  intros Hs. rewrite filter_app. simpl.
  rewrite (p_stackable t Hs). apply app_nil_r.
Qed.

Lemma pop_operators_spec (o1 : jsstring) (stack out : list token) :
  Forall (fun t => stackable t = true) stack ->
  let st := pop_operators o1 out stack in
  Forall (fun t => stackable t = true) (ops st)
  /\ filter p (output st) = filter p out
  /\ exists ext, output st = out ++ ext.
Proof.
  revert out. induction stack as [|top stack IH]; intros out Hst; simpl.
  - repeat split; auto. exists []. now rewrite app_nil_r.
  - inversion Hst as [|? ? Htop Hrest]; subst.
    destruct top as [v|o2| | |]; simpl;
      try (repeat split; auto; exists []; now rewrite app_nil_r).
    destruct (pops o1 o2).
    + destruct (IH (out ++ [operator o2]) Hrest) as (H1 & H2 & ext & H3).
      repeat split; auto.
      * rewrite H2. now apply filter_snoc_stackable.
      * exists (operator o2 :: ext). rewrite H3. now rewrite <- app_assoc.
    + repeat split; auto. exists []. now rewrite app_nil_r.
Qed.

Lemma pop_to_left_paren_spec (stack out : list token) (st : rpn_state) :
  Forall (fun t => stackable t = true) stack ->
  pop_to_left_paren out stack = ok st ->
  Forall (fun t => stackable t = true) (ops st)
  /\ filter p (output st) = filter p out
  /\ exists ext, output st = out ++ ext.
Proof.
  revert out. induction stack as [|top stack IH]; intros out Hst Hpop;
    simpl in Hpop; [discriminate|].
  inversion Hst as [|? ? Htop Hrest]; subst.
  destruct top as [v|o2| | |]; try discriminate.
  - destruct (IH _ Hrest Hpop) as (H1 & H2 & ext & H3).
    repeat split; auto.
    + rewrite H2. now apply filter_snoc_stackable.
    + exists (operator o2 :: ext). rewrite H3. now rewrite <- app_assoc.
  - injection Hpop as <-. simpl. repeat split; auto.
    exists []. now rewrite app_nil_r.
Qed.

Lemma rpn_step_spec (st st' : rpn_state) (t : token) :
  Forall (fun t => stackable t = true) (ops st) ->
  rpn_step st t = ok st' ->
  Forall (fun t => stackable t = true) (ops st')
  /\ filter p (output st') = filter p (output st) ++ filter p [t]
  /\ exists ext, output st' = output st ++ ext.
Proof.
  intros Hst Hstep. destruct t as [v|o1| | |]; simpl in Hstep.
  - injection Hstep as <-. simpl. rewrite filter_app. eauto.
  - injection Hstep as <-.
    destruct (pop_operators_spec o1 (ops st) (output st) Hst) as (H1 & H2 & H3).
    cbn [ops output filter]. rewrite (p_stackable (operator o1) eq_refl).
    rewrite app_nil_r. repeat split; auto.
  - injection Hstep as <-. cbn [ops output filter].
    rewrite (p_stackable left_paren eq_refl), app_nil_r.
    repeat split; auto. exists []. now rewrite app_nil_r.
  - destruct (pop_to_left_paren_spec _ _ _ Hst Hstep) as (H1 & H2 & H3).
    simpl. destruct (p right_paren) eqn:Hp.
    + apply p_operand in Hp. discriminate.
    + rewrite app_nil_r. auto.
  - injection Hstep as <-. simpl. rewrite filter_app. eauto.
Qed.

Lemma rpn_scan_spec (tokens : list token) :
  forall st st',
    Forall (fun t => stackable t = true) (ops st) ->
    rpn_scan tokens st = ok st' ->
    Forall (fun t => stackable t = true) (ops st')
    /\ filter p (output st') = filter p (output st) ++ filter p tokens
    /\ exists ext, output st' = output st ++ ext.
Proof.
  induction tokens as [|t tokens IH]; intros st st' Hst Hscan; simpl in Hscan.
  - injection Hscan as <-. rewrite app_nil_r. repeat split; auto.
    exists []. now rewrite app_nil_r.
  - apply bind_ok in Hscan as (st1 & Hstep & Hscan).
    destruct (rpn_step_spec _ _ _ Hst Hstep) as (H1 & H2 & ext1 & H3).
    destruct (IH _ _ H1 Hscan) as (K1 & K2 & ext2 & K3).
    repeat split; auto.
    + rewrite K2, H2, <- app_assoc, <- filter_app. reflexivity.
    + exists (ext1 ++ ext2). now rewrite K3, H3, <- app_assoc.
Qed.

Lemma drain_spec (stack out out' : list token) :
  Forall (fun t => stackable t = true) stack ->
  drain out stack = ok out' ->
  filter p out' = filter p out /\ exists ext, out' = out ++ ext.
Proof.
  revert out. induction stack as [|top stack IH]; intros out Hst Hd;
    simpl in Hd.
  - injection Hd as <-. split; auto. exists []. now rewrite app_nil_r.
  - inversion Hst as [|? ? Htop Hrest]; subst.
    destruct top as [v|o| | |]; try discriminate.
    destruct (IH _ Hrest Hd) as (H1 & ext & H2). split.
    + rewrite H1. now apply filter_snoc_stackable.
    + exists (operator o :: ext). rewrite H2. now rewrite <- app_assoc.
Qed.

Lemma toRPN_filter (tokens out : list token) :
  toRPN tokens = ok out -> filter p out = filter p tokens.
Proof.
  unfold toRPN. intros H. apply bind_ok in H as (st & Hscan & Hd).
  destruct (rpn_scan_spec tokens (mk_rpn [] []) st (Forall_nil _) Hscan)
    as (H1 & H2 & _).
  destruct (drain_spec _ _ _ H1 Hd) as (H3 & _).
  now rewrite H3, H2.
Qed.

End Parser.

Lemma rpn_scan_app (pre post : list token) (st st' : rpn_state) :
  rpn_scan (pre ++ post) st = ok st' ->
  exists mid, rpn_scan pre st = ok mid /\ rpn_scan post mid = ok st'.
Proof.
  revert st. induction pre as [|t pre IH]; intros st H; simpl in *.
  - eauto.
  - apply bind_ok in H as (st1 & Hstep & Hscan).
    rewrite Hstep. simpl. auto.
Qed.

Lemma number_operand (t : token) : is_number t = true -> operand t = true.
Proof. unfold operand. now intros ->. Qed.

Lemma percent_operand (t : token) : is_percent t = true -> operand t = true.
Proof. unfold operand. intros ->. apply orb_true_r. Qed.

Lemma pop_to_left_paren_none (stack out : list token) :
  forallb (fun t => negb (is_left_paren t)) stack = true ->
  pop_to_left_paren out stack = throw MismatchedParentheses.
Proof.
  revert out. induction stack as [|top stack IH]; intros out H; simpl in *.
  - reflexivity.
  - apply andb_true_iff in H as [Htop Hrest].
    destruct top; try discriminate; now apply IH.
Qed.

Lemma drain_left_paren (stack out : list token) :
  In left_paren stack -> drain out stack = throw MismatchedParentheses.
Proof.
  revert out. induction stack as [|top stack IH]; intros out H; simpl in *.
  - contradiction.
  - destruct top; try reflexivity; destruct H as [H|H];
      try discriminate; now apply IH.
Qed.

(** ** The precedence table *)

Lemma precedence_left_assoc (o : jsstring) (x : Z) :
  precedence o = Some x -> isLeftAssoc o = true.
Proof.
  unfold precedence, isLeftAssoc.
  destruct (jsstring_eqb o (str "+")); [reflexivity|].
  destruct (jsstring_eqb o (str "-")); [reflexivity|].
  destruct (jsstring_eqb o (str "*")); [reflexivity|].
  destruct (jsstring_eqb o (str "/")); [reflexivity|discriminate].
Qed.


(** ** The evaluator's division *)

Lemma eqb_zero (b : JS.number) :
  JS.eqb b JS.zero = true <-> exists s, b = S754_zero s.
Proof.
  split.
  - destruct b as [s|s| |s m e]; simpl; intros H; eauto;
      try discriminate; destruct s; discriminate.
  - intros [s ->]. reflexivity.
Qed.

Lemma apply_operator_div (a b : JS.number) :
  apply_operator (str "/") a b =
  if JS.eqb b JS.zero then throw DivisionByZero else ok (JS.div a b).
Proof. reflexivity. Qed.

Lemma apply_operator_div_only (o : jsstring) (a b : JS.number) :
  apply_operator o a b = throw DivisionByZero -> o = str "/".
Proof.
  unfold apply_operator.
  destruct (jsstring_eqb o (str "+")); [discriminate|].
  destruct (jsstring_eqb o (str "-")); [discriminate|].
  destruct (jsstring_eqb o (str "*")); [discriminate|].
  destruct (jsstring_eqb o (str "/")) eqn:E; [|discriminate].
  intros _. now apply jsstring_eqb_eq.
Qed.

(** ** The calculator's state *)

Lemma evaluateExpression_ok (c : calc) (r : jsstring) :
  current c <> [] -> evaluate (current c) = ok r -> r <> [] ->
  current (evaluateExpression c) = r /\ display (evaluateExpression c) = r.
Proof.
  intros Hc He Hr. unfold evaluateExpression.
  destruct (current c) as [|ch rest] eqn:E; [congruence|].
  rewrite He. unfold updateDisplay. simpl.
  destruct r; [congruence|]. auto.
Qed.

Lemma evaluateExpression_throw (c : calc) (e : error) :
  current c <> [] -> evaluate (current c) = throw e ->
  evaluateExpression c = mk_calc [] (history c) (str "Error").
Proof.
  intros Hc He. unfold evaluateExpression.
  destruct (current c) as [|ch rest] eqn:E; [congruence|].
  now rewrite He.
Qed.

(** * The claims *)

(** ** Worked examples *)

(** C1. Unary minus by zero insertion: ["-5+3"] gives ["-2"] and
    ["(-2)*3"] gives ["-6"], but ["3*-2"] is tokenized as [3 * 0 - 2], whose
    postfix form is [3 0 * 2 -], and gives ["-2"] where the specification
    asks for ["-6"]. *)
Theorem unary_minus_examples :
  evaluate (str "-5+3") = ok (str "-2")
  /\ evaluate (str "(-2)*3") = ok (str "-6")
  /\ tokenize (str "3*-2") =
     ok [number (str "3"); operator (str "*"); number (str "0");
         operator (str "-"); number (str "2")]
  /\ (tokens <- tokenize (str "3*-2") ;; toRPN tokens) =
     ok [number (str "3"); number (str "0"); operator (str "*");
         number (str "2"); operator (str "-")]
  /\ evaluate (str "3*-2") = ok (str "-2").
Proof. repeat split; vm_compute; reflexivity. Qed.

(** C2, as stated, fails: ["+5"] does underflow the evaluator's stack. *)
Lemma plus_five_underflows : evaluate (str "+5") = throw OperatorError.
Proof. vm_compute; reflexivity. Qed.

(** C2, amended. The tokenizer inserts the zero before a leading ['-']
    only: a leading ['+'] is pushed alone, so ["+5"] fails with the operator
    error, while ["-5"] is [0 - 5] and evaluates to ["-5"]. *)
Theorem leading_sign_normalization :
  (forall rest, tokenize (cu "+" :: rest) = tokenize_from rest [operator (str "+")])
  /\ (forall rest, tokenize (cu "-" :: rest) =
                   tokenize_from rest [number (str "0"); operator (str "-")])
  /\ evaluate (str "+5") = throw OperatorError
  /\ evaluate (str "-5") = ok (str "-5").
Proof.
  split; [intros rest; reflexivity|].
  split; [intros rest; reflexivity|].
  split; vm_compute; reflexivity.
Qed.


(** C6. Postfix percent: the parser appends it to the output at once, the
    evaluator replaces the top of the stack [v] by [v / 100]; ["50%"] gives
    ["0.5"], and ["200+10%"], whose postfix form is [200 10 % +], gives
    ["200.1"]. *)
Theorem percent_examples :
  evaluate (str "50%") = ok (str "0.5")
  /\ evaluate (str "200+10%") = ok (str "200.1")
  /\ (tokens <- tokenize (str "200+10%") ;; toRPN tokens) =
     ok [number (str "200"); number (str "10"); percent; operator (str "+")]
  /\ (forall st, rpn_step st percent = ok (mk_rpn (output st ++ [percent]) (ops st)))
  /\ (forall v stack, eval_step (v :: stack) percent = ok (JS.div v hundred :: stack))
  /\ eval_step [] percent = throw PercentError.
Proof.
  do 3 (split; [vm_compute; reflexivity|]).
  split; [intros st; reflexivity|].
  split; [intros v stack; reflexivity|reflexivity].
Qed.

(** ** Division by zero *)

(** C7. ["5/0"] fails with the division error; a division step fails with
    it exactly when the operand popped first is a zero, and divides
    otherwise; no other step raises this error. *)
Theorem division_by_zero :
  evaluate (str "5/0") = throw DivisionByZero
  /\ (forall a b stack,
        eval_step (b :: a :: stack) (operator (str "/")) = throw DivisionByZero
        <-> exists s, b = S754_zero s)
  /\ (forall a b stack,
        (forall s, b <> S754_zero s) ->
        eval_step (b :: a :: stack) (operator (str "/")) = ok (JS.div a b :: stack))
  /\ (forall stack t,
        eval_step stack t = throw DivisionByZero -> t = operator (str "/")).
Proof.
  split; [vm_compute; reflexivity|]. split; [|split].
  - intros a b stack. cbn [eval_step]. rewrite apply_operator_div.
    rewrite <- eqb_zero. destruct (JS.eqb b JS.zero); simpl; split;
      congruence.
  - intros a b stack Hb. cbn [eval_step]. rewrite apply_operator_div.
    destruct (JS.eqb b JS.zero) eqn:E; [|reflexivity].
    apply eqb_zero in E as [s ->]. now destruct (Hb s).
  - intros stack t H. destruct t as [v|o| | |]; simpl in H; try discriminate.
    + destruct (negb _); discriminate.
    + destruct stack as [|b [|a stack]]; try discriminate.
      destruct (apply_operator o a b) eqn:E; simpl in H; [discriminate|].
      injection H as ->. apply apply_operator_div_only in E. now subst o.
    + destruct stack; discriminate.
Qed.

(** C9. A negative zero on top of the stack, as [(0-1)*0] leaves it, makes
    the division fail like a positive one: the test [b === 0] holds of
    both. *)
Theorem division_by_negative_zero :
  (forall a stack,
     eval_step (S754_zero true :: a :: stack) (operator (str "/"))
     = throw DivisionByZero)
  /\ JS.eqb (S754_zero true) JS.zero = true
  /\ (tokens <- tokenize (str "(0-1)*0") ;; rpn <- toRPN tokens ;; evalRPN rpn)
     = ok (S754_zero true)
  /\ evaluate (str "5/((0-1)*0)") = throw DivisionByZero.
Proof.
  split; [intros a stack; reflexivity|].
  split; [reflexivity|].
  split; vm_compute; reflexivity.
Qed.

(** ** Parentheses *)

(** C8. Both unbalanced forms are rejected with the parenthesis error:
    ["(1+2"] is scanned to the end and its left parenthesis is found when
    the stack is emptied; ["1+2)"] fails at the right parenthesis, which
    finds no left one on the stack. *)
Theorem mismatched_parentheses :
  evaluate (str "(1+2") = throw MismatchedParentheses
  /\ evaluate (str "1+2)") = throw MismatchedParentheses
  /\ (tokens <- tokenize (str "(1+2") ;; rpn_scan tokens (mk_rpn [] [])) =
     ok (mk_rpn [number (str "1"); number (str "2")]
                [operator (str "+"); left_paren])
  /\ (tokens <- tokenize (str "1+2)") ;; rpn_scan tokens (mk_rpn [] [])) =
     throw MismatchedParentheses
  /\ (forall out stack,
        In left_paren stack -> drain out stack = throw MismatchedParentheses)
  /\ (forall st,
        forallb (fun t => negb (is_left_paren t)) (ops st) = true ->
        rpn_step st right_paren = throw MismatchedParentheses).
Proof.
  do 4 (split; [vm_compute; reflexivity|]).
  split.
  - intros out stack. apply drain_left_paren.
  - intros st. apply pop_to_left_paren_none.
Qed.

(** ** The order of operands in the postfix sequence *)

(** C10. The operator stack only ever holds operators and left
    parentheses, never a number or a percent. Hence, when [toRPN] succeeds,
    the numbers of the output are those of the input in the same order (and
    so are the numbers and percents taken together), and each percent
    stands in the output right after everything that was output for the
    tokens before it. *)
Theorem toRPN_operand_order (tokens out : list token) :
  toRPN tokens = ok out ->
  (forall pre post st,
     tokens = pre ++ post ->
     rpn_scan pre (mk_rpn [] []) = ok st ->
     Forall (fun t => stackable t = true) (ops st))
  /\ filter is_number out = filter is_number tokens
  /\ filter operand out = filter operand tokens
  /\ (forall pre post,
        tokens = pre ++ percent :: post ->
        exists st rest,
          rpn_scan pre (mk_rpn [] []) = ok st
          /\ out = output st ++ percent :: rest).
Proof.
  intros H. split; [|split; [|split]].
  - intros pre post st _ Hscan.
    now destruct (rpn_scan_spec operand (fun t Ht => Ht) pre (mk_rpn [] []) st
                    (Forall_nil _) Hscan).
  - now apply (toRPN_filter is_number number_operand).
  - now apply (toRPN_filter operand (fun t Ht => Ht)).
  - intros pre post ->. unfold toRPN in H.
    apply bind_ok in H as (final & Hscan & Hdrain).
    apply rpn_scan_app in Hscan as (st & Hpre & Hpost).
    simpl in Hpost.
    destruct (rpn_scan_spec operand (fun t Ht => Ht) pre (mk_rpn [] []) st
                (Forall_nil _) Hpre) as (Hst & _).
    destruct (rpn_scan_spec operand (fun t Ht => Ht) post
                (mk_rpn (output st ++ [percent]) (ops st)) final Hst Hpost)
      as (Hfinal & _ & ext1 & E1).
    destruct (drain_spec operand (fun t Ht => Ht) _ _ _ Hfinal Hdrain)
      as (_ & ext2 & E2).
    exists st, (ext1 ++ ext2). split; [assumption|].
    rewrite E2, E1. simpl. now rewrite <- !app_assoc.
Qed.

Lemma toRPN_operand_order_witness :
  filter is_number
    [number (str "2"); number (str "3"); percent; operator (str "+")]
  = filter is_number
      [number (str "2"); operator (str "+"); number (str "3"); percent].
Proof.
  exact (proj1 (proj2 (toRPN_operand_order
    [number (str "2"); operator (str "+"); number (str "3"); percent]
    [number (str "2"); number (str "3"); percent; operator (str "+")]
    eq_refl))).
Defined.

(** ** Feeding a result back *)

Lemma Zrange_In (lo : Z) (n : nat) (k : Z) :
  lo <= k < lo + Z.of_nat n -> In k (Zrange lo n).
Proof.
  intros Hk. unfold Zrange. apply in_map_iff.
  exists (Z.to_nat (k - lo)). split; [lia|]. apply in_seq. lia.
Qed.

Lemma reevaluates_spec (r : jsstring) :
  reevaluates r = true -> evaluate r = ok r.
Proof.
  unfold reevaluates. destruct (evaluate r) as [r'|e]; [|discriminate].
  intros H. apply jsstring_eqb_eq in H. now subst.
Qed.

(** All decimals [k / 10^j] with [|k| <= 500] and [0 <= j <= 3], checked
    one by one. *)
Lemma small_decimals_reevaluate :
  forallb (fun k =>
    forallb (fun j => reevaluates (JS.String (decimal_value k j))) (Zrange 0 4))
    (Zrange (-500) 1001) = true.
Proof. vm_compute. reflexivity. Qed.

Lemma evaluate_invalid (r : jsstring) (c : N) :
  In c r -> is_calc_char c = false ->
  exists c', is_calc_char c' = false /\ evaluate r = throw (InvalidCharacter c').
Proof.
  intros Hin Hc.
  destruct (tokenize_from_invalid (List.length r) r [] (le_n _))
    as (c' & Hc' & Htok); [eauto|].
  exists c'. split; [assumption|].
  unfold evaluate, tokenize. now rewrite Htok.
Qed.

(** [String] writes the magnitudes below [1e-6] and from [1e21] on with an
    exponent, whose ['e'] the tokenizer does not accept. *)
Lemma format_exponent (n k s : Z) :
  0 < k -> n <= -6 \/ 21 < n ->
  In (cu "e") (JS.format n k s) /\ is_calc_char (cu "e") = false.
Proof.
  intros Hk Hn. split; [|reflexivity]. unfold JS.format.
  replace ((k <=? n) && (n <=? 21)) with false
    by (symmetry; apply andb_false_iff; rewrite !Z.leb_gt; lia).
  replace ((0 <? n) && (n <=? 21)) with false
    by (symmetry; apply andb_false_iff; rewrite Z.ltb_ge, Z.leb_gt; lia).
  replace ((-6 <? n) && (n <=? 0)) with false
    by (symmetry; apply andb_false_iff; rewrite Z.ltb_ge, Z.leb_gt; lia).
  destruct (k =? 1).
  - apply in_or_app. right. now left.
  - apply in_or_app. right. apply in_cons.
    apply in_or_app. right. now left.
Qed.

(** Results of small magnitude in plain notation are returned unchanged
    when they are evaluated: all decimals [k / 10^j] with [|k| <= 500] and
    [0 <= j <= 3]. *)
Lemma small_decimals_round_trip (k j : Z) :
  -500 <= k <= 500 -> 0 <= j <= 3 ->
  evaluate (JS.String (decimal_value k j)) = ok (JS.String (decimal_value k j)).
Proof.
  intros Hk Hj. apply reevaluates_spec.
  assert (Ik : In k (Zrange (-500) 1001)).
  { apply Zrange_In. change (Z.of_nat 1001) with 1001. lia. }
  assert (Ij : In j (Zrange 0 4)).
  { apply Zrange_In. change (Z.of_nat 4) with 4. lia. }
  pose proof small_decimals_reevaluate as H.
  rewrite forallb_forall in H. specialize (H k Ik).
  rewrite forallb_forall in H. exact (H j Ij).
Qed.

(** C4. Feeding a result back does not always return it. ["0.0000001"]
    evaluates to ["1e-7"], and a one followed by 300 zeros evaluates to
    ["Infinity"]: the tokenizer rejects both results, at their ['e'] and
    ['I']. ["4096.02"] evaluates to ["4096.020000000001"], which evaluates
    to ["4096.020000000002"]: the rounding to twelve decimals is not exact
    at this magnitude and the value drifts at each evaluation. *)
Lemma reevaluation_fails :
  (evaluate (str "0.0000001") = ok (str "1e-7")
   /\ evaluate (str "1e-7") = throw (InvalidCharacter (cu "e")))
  /\ (evaluate (str "4096.02") = ok (str "4096.020000000001")
      /\ evaluate (str "4096.020000000001") = ok (str "4096.020000000002"))
  /\ (evaluate (str "1" ++ repeat (cu "0") 300) = ok (str "Infinity")
      /\ evaluate (str "Infinity") = throw (InvalidCharacter (cu "I"))).
Proof. repeat split; vm_compute; reflexivity. Qed.

(** ** Number texts that the evaluator accepts *)

Lemma numchar_range (c : N) : is_numchar c = true -> (46 <= c <= 57)%N.
Proof.
  unfold is_numchar, is_digit, is_dot, cu. simpl. intros H.
  apply orb_true_iff in H as [H|H].
  - apply andb_true_iff in H as [H1 H2].
    apply N.leb_le in H1, H2. lia.
  - apply N.eqb_eq in H. lia.
Qed.

Lemma numchar_not_digit (c : N) :
  is_numchar c = true -> is_digit c = false -> is_dot c = true.
Proof. unfold is_numchar. intros H Hd. now rewrite Hd in H. Qed.

Lemma digit_not_dot (c : N) : is_digit c = true -> is_dot c = false.
Proof.
  unfold is_digit, is_dot, cu. simpl. intros H.
  apply andb_true_iff in H as [H1 H2]. apply N.leb_le in H1.
  apply N.eqb_neq. lia.
Qed.

Lemma numchar_neq (c d : N) :
  is_numchar c = true -> (d < 46 \/ 57 < d)%N -> N.eqb c d = false.
Proof.
  intros H Hd. apply numchar_range in H. apply N.eqb_neq. lia.
Qed.

Lemma digits_spec (s : jsstring) :
  forall acc len,
    exists acc' ds rest,
      JS.digits s acc len = (acc', len + Z.of_nat (List.length ds), rest)
      /\ s = ds ++ rest
      /\ forallb is_digit ds = true
      /\ match rest with [] => True | c :: _ => is_digit c = false end.
Proof.
  induction s as [|ch s IH]; intros acc len; cbn [JS.digits].
  - exists acc, [], []. simpl. rewrite Z.add_0_r. auto.
  - destruct (is_digit ch) eqn:Hd.
    + destruct (IH (10 * acc + digit_val ch) (len + 1))
        as (acc' & ds & rest & E & Hs & Hds & Hrest).
      exists acc', (ch :: ds), rest. rewrite E.
      cbn [List.length forallb app]. rewrite Hd, Hs.
      repeat split; auto. do 2 f_equal. lia.
    + exists acc, [], (ch :: s). simpl. rewrite Z.add_0_r. auto.
Qed.

Lemma trim_start_id (s : jsstring) :
  match s with [] => True | c :: _ => is_space c = false end ->
  JS.trim_start s = s.
Proof. destruct s as [|c s]; simpl; [reflexivity|]. now intros ->. Qed.

Lemma numchars_not_space (s : jsstring) :
  forallb is_numchar s = true ->
  match s with [] => True | c :: _ => is_space c = false end.
Proof.
  destruct s as [|c s]; simpl; [trivial|]. intros H.
  apply andb_true_iff in H as [Hc _].
  destruct (is_space c) eqn:E; [|reflexivity].
  apply space_not_numchar in E. congruence.
Qed.

Lemma forallb_rev {A : Type} (f : A -> bool) (l : list A) :
  forallb f l = true -> forallb f (rev l) = true.
Proof.
  rewrite !forallb_forall. intros H x Hx. apply H. now apply in_rev.
Qed.

Lemma trim_numchars (v : jsstring) :
  forallb is_numchar v = true -> JS.trim v = v.
Proof.
  intros H. unfold JS.trim.
  rewrite (trim_start_id v) by now apply numchars_not_space.
  rewrite trim_start_id by now apply numchars_not_space, forallb_rev.
  apply rev_involutive.
Qed.

Lemma non_decimal_numchars (v : jsstring) :
  forallb is_numchar v = true -> JS.non_decimal v = None.
Proof.
  destruct v as [|z [|x [|y ds]]]; try reflexivity.
  intros H. simpl in H.
  apply andb_true_iff in H as [_ H]. apply andb_true_iff in H as [Hx _].
  unfold JS.non_decimal. destruct (N.eqb z (cu "0")); [|reflexivity].
  unfold cu; simpl N_of_ascii.
  rewrite !(numchar_neq x) by (assumption || lia). reflexivity.
Qed.

Lemma str_decimal_numchars (v : jsstring) :
  number_text v = true -> JS.str_decimal v = JS.unsigned_decimal false v.
Proof.
  destruct v as [|ch t]; [discriminate|]. unfold number_text. intros H.
  simpl in H. apply andb_true_iff in H as [Hc _].
  unfold JS.str_decimal, cu; simpl N_of_ascii.
  rewrite !(numchar_neq ch) by (assumption || lia).
  simpl. rewrite (numchar_neq ch) by (assumption || lia). reflexivity.
Qed.

Lemma filter_dot_digits (ds : jsstring) :
  forallb is_digit ds = true -> filter is_dot ds = [].
Proof.
  induction ds as [|c ds IH]; simpl; [reflexivity|]. intros H.
  apply andb_true_iff in H as [Hc Hds].
  rewrite (digit_not_dot c Hc). auto.
Qed.

Lemma existsb_digits (ds : jsstring) :
  forallb is_digit ds = true -> ds <> [] -> existsb is_digit ds = true.
Proof.
  destruct ds as [|c ds]; [congruence|]. simpl. intros H _.
  apply andb_true_iff in H as [-> _]. reflexivity.
Qed.

(** A text over [[0-9.]] that [Number] does not turn into [NaN] has at
    most one dot and at least one digit. *)
Lemma Number_numeric_text (v : jsstring) :
  number_text v = true -> JS.Number v <> JS.NaN -> number_invariant v = true.
Proof.
  intros Hv. assert (Hall : forallb is_numchar v = true).
  { destruct v; [discriminate|exact Hv]. }
  unfold JS.Number. rewrite trim_numchars by assumption.
  destruct v as [|ch t] eqn:Ev; [discriminate|]. rewrite <- Ev in *.
  rewrite non_decimal_numchars, str_decimal_numchars by assumption.
  clear ch t Ev Hv. unfold JS.unsigned_decimal.
  destruct (digits_spec v 0 0) as (ip & ds1 & s1 & E1 & -> & Hds1 & Hs1).
  rewrite E1. rewrite forallb_app in Hall.
  apply andb_true_iff in Hall as [_ Hall].
  assert (Hdots1 := filter_dot_digits ds1 Hds1).
  unfold number_invariant, count_dots.
  destruct s1 as [|c t].
  - (* digits only *)
    rewrite app_nil_r, Hdots1. simpl.
    destruct (0 <? _) eqn:Hlen; [|congruence].
    intros _. apply existsb_digits; [assumption|].
    intros ->. simpl in Hlen. discriminate.
  - simpl in Hall. apply andb_true_iff in Hall as [Hc Hall].
    rewrite (numchar_not_digit c Hc Hs1).
    destruct (digits_spec t 0 0) as (fp & ds2 & s2 & E2 & -> & Hds2 & Hs2).
    rewrite E2. rewrite forallb_app in Hall.
    apply andb_true_iff in Hall as [_ Hall].
    destruct (0 <? _) eqn:Hlen; [|congruence].
    destruct s2 as [|c2 t2].
    + (* digits, a dot, digits *)
      intros _. rewrite app_nil_r, filter_app, Hdots1. simpl.
      rewrite (numchar_not_digit c Hc Hs1), (filter_dot_digits ds2 Hds2).
      simpl. rewrite existsb_app. simpl. rewrite Hs1. simpl.
      destruct ds1 as [|d ds1].
      * simpl. apply existsb_digits; [assumption|].
        intros ->. simpl in Hlen. discriminate.
      * simpl in Hds1. apply andb_true_iff in Hds1 as [Hd _].
        simpl. now rewrite Hd.
    + (* a second dot *)
      simpl in Hall. apply andb_true_iff in Hall as [Hc2 _].
      unfold JS.exponent_part, cu; simpl N_of_ascii.
      rewrite !(numchar_neq c2) by (assumption || lia). simpl. congruence.
Qed.

Lemma eval_step_number (v : jsstring) (stack stack' : list JS.number) :
  eval_step stack (number v) = ok stack' -> JS.Number v <> JS.NaN.
Proof.
  simpl. intros H E. rewrite E in H. discriminate.
Qed.

(** ** The texts of number tokens, settled *)

(** C3, as stated, fails: the tokenizer makes one number token of
    ["1.2.3"], with two dots. *)
Lemma number_invariant_fails :
  ~ (forall expr tokens,
       tokenize expr = ok tokens ->
       forall v, In (number v) tokens -> number_invariant v = true).
Proof.
  intros H.
  specialize (H (str "1.2.3") [number (str "1.2.3")] eq_refl
                (str "1.2.3") (or_introl eq_refl)).
  discriminate H.
Qed.

(** C3, amended. Every number token that [tokenize] emits has a non-empty
    text made of digits and dots; the texts with several dots or without a
    digit are emitted too, and it is the evaluator that refuses them: a
    number token that [evalRPN] pushes has at most one dot and at least one
    digit. *)
Theorem tokenize_number_text (expr : jsstring) (tokens : list token) (v : jsstring) :
  tokenize expr = ok tokens ->
  In (number v) tokens ->
  number_text v = true
  /\ (number_invariant v = false ->
      forall stack, eval_step stack (number v) = throw InvalidNumber).
Proof.
  intros Htok Hin.
  assert (Hv : number_text v = true).
  { apply (tokenize_from_numbers_ok (List.length expr) expr [] tokens);
      auto. intros ? []. }
  split; [assumption|]. intros Hinv stack.
  destruct (eval_step stack (number v)) as [stack'|e] eqn:E.
  - apply eval_step_number in E.
    apply (Number_numeric_text v Hv) in E. congruence.
  - simpl in E. destruct (negb _); congruence.
Qed.

Lemma tokenize_number_text_witness :
  number_text (str "1.2.3") = true
  /\ (number_invariant (str "1.2.3") = false ->
      forall stack, eval_step stack (number (str "1.2.3")) = throw InvalidNumber).
Proof.
  apply (tokenize_number_text (str "1.2.3") [number (str "1.2.3")] (str "1.2.3")).
  - reflexivity.
  - simpl. left. reflexivity.
Defined.

(** * Further properties *)

(** ** The parser and the nesting of parentheses *)

Lemma stackable_cases (t : token) :
  stackable t = true -> (exists o, t = operator o) \/ t = left_paren.
Proof. destruct t; try discriminate; eauto. Qed.

Lemma pop_operators_parens (o1 : jsstring) (stack out : list token) :
  count_left_parens (ops (pop_operators o1 out stack)) = count_left_parens stack.
Proof.
  revert out. induction stack as [|top stack IH]; intros out; simpl;
    [reflexivity|].
  destruct top as [v|o2| | |]; try reflexivity.
  destruct (pops o1 o2); [|reflexivity]. rewrite IH. reflexivity.
Qed.

Lemma pop_operators_stackable (o1 : jsstring) (stack out : list token) :
  Forall (fun t => stackable t = true) stack ->
  Forall (fun t => stackable t = true) (ops (pop_operators o1 out stack)).
Proof.
  intros H. now destruct (pop_operators_spec operand (fun t Ht => Ht) o1 stack out H).
Qed.

(** The right parenthesis finds the innermost left one, if there is one. *)
Lemma pop_to_left_paren_parens (stack out : list token) :
  Forall (fun t => stackable t = true) stack ->
  match pop_to_left_paren out stack with
  | ok st =>
      count_left_parens stack = S (count_left_parens (ops st))
      /\ Forall (fun t => stackable t = true) (ops st)
  | throw e => e = MismatchedParentheses /\ count_left_parens stack = O
  end.
Proof.
  revert out. induction stack as [|top stack IH]; intros out Hst; simpl.
  - auto.
  - inversion Hst as [|? ? Htop Hrest]; subst.
    destruct top as [v|o2| | |]; try discriminate.
    + specialize (IH (out ++ [operator o2]) Hrest).
      destruct (pop_to_left_paren _ stack); exact IH.
    + simpl. auto.
Qed.

(** The last loop succeeds exactly on a stack without left parenthesis. *)
Lemma drain_parens (stack out : list token) :
  Forall (fun t => stackable t = true) stack ->
  match drain out stack with
  | ok _ => count_left_parens stack = O
  | throw e => e = MismatchedParentheses /\ count_left_parens stack <> O
  end.
Proof.
  revert out. induction stack as [|top stack IH]; intros out Hst; simpl.
  - reflexivity.
  - inversion Hst as [|? ? Htop Hrest]; subst.
    destruct top as [v|o2| | |]; try discriminate.
    + exact (IH (out ++ [operator o2]) Hrest).
    + split; [reflexivity|]. unfold count_left_parens. simpl. lia.
Qed.

(** The number of left parentheses on the stack is the nesting depth. *)
Lemma rpn_scan_depth (tokens : list token) :
  forall st,
    Forall (fun t => stackable t = true) (ops st) ->
    match rpn_scan tokens st, paren_depth tokens (count_left_parens (ops st)) with
    | ok st', Some d =>
        count_left_parens (ops st') = d
        /\ Forall (fun t => stackable t = true) (ops st')
    | throw e, None => e = MismatchedParentheses
    | _, _ => False
    end.
Proof.
  induction tokens as [|t tokens IH]; intros st Hst; simpl.
  - auto.
  - destruct t as [v|o1| | |]; simpl.
    + exact (IH (mk_rpn (output st ++ [number v]) (ops st)) Hst).
    + specialize (IH (mk_rpn (output (pop_operators o1 (output st) (ops st)))
                        (operator o1 :: ops (pop_operators o1 (output st) (ops st))))).
      cbn [ops] in IH. unfold count_left_parens in IH. cbn [filter is_left_paren] in IH.
      fold (count_left_parens (ops (pop_operators o1 (output st) (ops st)))) in IH.
      rewrite pop_operators_parens in IH. apply IH.
      constructor; [reflexivity|]. now apply pop_operators_stackable.
    + specialize (IH (mk_rpn (output st) (left_paren :: ops st))).
      apply IH. constructor; [reflexivity|assumption].
    + pose proof (pop_to_left_paren_parens (ops st) (output st) Hst) as Hp.
      destruct (pop_to_left_paren (output st) (ops st)) as [st1|e]; simpl.
      * destruct Hp as [Hc Hs]. rewrite Hc. now apply IH.
      * destruct Hp as [-> ->]. reflexivity.
    + exact (IH (mk_rpn (output st ++ [percent]) (ops st)) Hst).
Qed.

Lemma toRPN_depth (tokens : list token) :
  match toRPN tokens with
  | ok _ => balanced tokens = true
  | throw e => e = MismatchedParentheses /\ balanced tokens = false
  end.
Proof.
  unfold toRPN, balanced.
  pose proof (rpn_scan_depth tokens (mk_rpn [] []) (Forall_nil _)) as H.
  cbn [ops] in H. change (count_left_parens []) with O in H.
  destruct (rpn_scan tokens (mk_rpn [] [])) as [st|e];
    destruct (paren_depth tokens 0) as [d|]; simpl; try contradiction.
  - destruct H as [Hd Hst].
    pose proof (drain_parens (ops st) (output st) Hst) as Hdr.
    destruct (drain (output st) (ops st)) as [out|e].
    + rewrite <- Hd, Hdr. reflexivity.
    + destruct Hdr as [-> Hne]. split; [reflexivity|].
      rewrite <- Hd. destruct (count_left_parens (ops st)); congruence.
  - auto.
Qed.

(** X1. [toRPN] succeeds exactly on the token lists whose parentheses are
    balanced, and the only error it throws is the parenthesis error. *)
Theorem toRPN_balanced (tokens : list token) :
  ((exists out, toRPN tokens = ok out) <-> balanced tokens = true)
  /\ (forall e, toRPN tokens = throw e -> e = MismatchedParentheses).
Proof.
  pose proof (toRPN_depth tokens) as H.
  destruct (toRPN tokens) as [out|e].
  - split; [split; eauto|discriminate].
  - destruct H as [-> Hb]. split.
    + split; [intros [out Hout]; discriminate|congruence].
    + intros e H. now injection H as <-.
Qed.

(** ** The parser loses and invents no token *)

Lemma pop_operators_pending (o1 : jsstring) (stack out : list token) :
  pending (pop_operators o1 out stack) = out ++ filter not_paren stack.
Proof.
  unfold pending. revert out.
  induction stack as [|top stack IH]; intros out; simpl; [reflexivity|].
  destruct top as [v|o2| | |]; try reflexivity.
  destruct (pops o1 o2); [|reflexivity].
  rewrite IH, <- app_assoc. reflexivity.
Qed.

Lemma pop_to_left_paren_pending (stack out : list token) (st : rpn_state) :
  Forall (fun t => stackable t = true) stack ->
  pop_to_left_paren out stack = ok st ->
  pending st = out ++ filter not_paren stack.
Proof.
  unfold pending. revert out.
  induction stack as [|top stack IH]; intros out Hst Hpop; simpl in Hpop;
    [discriminate|].
  inversion Hst as [|? ? Htop Hrest]; subst.
  destruct top as [v|o2| | |]; try discriminate.
  - rewrite (IH _ Hrest Hpop), <- app_assoc. reflexivity.
  - injection Hpop as <-. reflexivity.
Qed.

Lemma rpn_step_pending (st st' : rpn_state) (t : token) :
  Forall (fun t => stackable t = true) (ops st) ->
  rpn_step st t = ok st' ->
  Permutation (pending st') (pending st ++ filter not_paren [t]).
Proof.
  intros Hst Hstep. destruct t as [v|o1| | |]; simpl in Hstep.
  - injection Hstep as <-. unfold pending. simpl.
    rewrite <- !app_assoc. apply Permutation_app_head, Permutation_app_comm.
  - injection Hstep as <-.
    pose proof (pop_operators_pending o1 (ops st) (output st)) as E.
    fold (pending st) in E. rewrite <- E. unfold pending. simpl.
    rewrite <- app_assoc. apply Permutation_app_head.
    apply (Permutation_app_comm [operator o1]).
  - injection Hstep as <-. unfold pending. simpl. now rewrite app_nil_r.
  - rewrite (pop_to_left_paren_pending _ _ _ Hst Hstep).
    unfold pending. simpl. now rewrite app_nil_r.
  - injection Hstep as <-. unfold pending. simpl.
    rewrite <- !app_assoc. apply Permutation_app_head, Permutation_app_comm.
Qed.

Lemma rpn_scan_pending (tokens : list token) :
  forall st st',
    Forall (fun t => stackable t = true) (ops st) ->
    rpn_scan tokens st = ok st' ->
    Permutation (pending st') (pending st ++ filter not_paren tokens).
Proof.
  induction tokens as [|t tokens IH]; intros st st' Hst Hscan; simpl in Hscan.
  - injection Hscan as <-. simpl. now rewrite app_nil_r.
  - apply bind_ok in Hscan as (st1 & Hstep & Hscan).
    destruct (rpn_step_spec operand (fun t Ht => Ht) _ _ _ Hst Hstep) as (H1 & _).
    rewrite (IH _ _ H1 Hscan), (rpn_step_pending _ _ _ Hst Hstep).
    rewrite <- app_assoc, <- filter_app. reflexivity.
Qed.

Lemma drain_pending (stack out out' : list token) :
  Forall (fun t => stackable t = true) stack ->
  drain out stack = ok out' ->
  out' = out ++ filter not_paren stack.
Proof.
  revert out. induction stack as [|top stack IH]; intros out Hst Hd;
    simpl in Hd.
  - injection Hd as <-. simpl. now rewrite app_nil_r.
  - inversion Hst as [|? ? Htop Hrest]; subst.
    destruct top as [v|o2| | |]; try discriminate.
    rewrite (IH _ Hrest Hd), <- app_assoc. reflexivity.
Qed.

Lemma toRPN_permutation (tokens out : list token) :
  toRPN tokens = ok out -> Permutation out (filter not_paren tokens).
Proof.
  unfold toRPN. intros H. apply bind_ok in H as (st & Hscan & Hd).
  destruct (rpn_scan_spec operand (fun t Ht => Ht) tokens (mk_rpn [] []) st
              (Forall_nil _) Hscan) as (Hst & _).
  rewrite (drain_pending _ _ _ Hst Hd).
  exact (rpn_scan_pending tokens (mk_rpn [] []) st (Forall_nil _) Hscan).
Qed.

(** X2. When [toRPN] succeeds, its output is a rearrangement of the input
    tokens without the parentheses: no token is lost, invented or
    repeated, and no parenthesis is output. *)
Theorem toRPN_rearranges (tokens out : list token) :
  toRPN tokens = ok out ->
  Permutation out (filter not_paren tokens)
  /\ List.length out = List.length (filter not_paren tokens)
  /\ Forall (fun t => not_paren t = true) out.
Proof.
  intros H. pose proof (toRPN_permutation tokens out H) as P.
  split; [assumption|]. split; [now apply Permutation_length|].
  apply Forall_forall. intros t Ht.
  apply (Permutation_in _ P), filter_In in Ht. tauto.
Qed.

Lemma toRPN_rearranges_witness :
  Permutation
    [number (str "2"); number (str "3"); operator (str "+");
     number (str "4"); operator (str "*")]
    (filter not_paren
       [left_paren; number (str "2"); operator (str "+"); number (str "3");
        right_paren; operator (str "*"); number (str "4")]).
Proof.
  exact (proj1 (toRPN_rearranges
    [left_paren; number (str "2"); operator (str "+"); number (str "3");
     right_paren; operator (str "*"); number (str "4")]
    [number (str "2"); number (str "3"); operator (str "+");
     number (str "4"); operator (str "*")] eq_refl)).
Defined.

(** ** The tokenizer and its alphabet *)

(** An invariant of the token list that every push keeps holds of the
    result of [tokenize]. *)
Lemma tokenize_from_invariant (I : list token -> Prop) :
  (forall tokens v, I tokens -> number_text v = true -> I (tokens ++ [number v])) ->
  (forall tokens ch, I tokens -> is_opchar ch = true ->
     I ((if N.eqb ch (cu "-") && unary_position tokens
         then tokens ++ [number (str "0")] else tokens) ++ [operator [ch]])) ->
  (forall tokens, I tokens -> I (tokens ++ [left_paren])) ->
  (forall tokens, I tokens -> I (tokens ++ [right_paren])) ->
  (forall tokens, I tokens -> I (tokens ++ [percent])) ->
  forall n expr tokens tokens',
    (List.length expr <= n)%nat ->
    I tokens -> tokenize_from expr tokens = ok tokens' -> I tokens'.
Proof.
  intros Hnum Hop Hl Hr Hp.
  induction n as [|n IH]; intros [|ch rest] tokens tokens' Hlen HI Htok;
    simpl in Hlen; try lia;
    try (simpl in Htok; injection Htok as <-; assumption).
  destruct (is_numchar ch) eqn:Hn.
  - rewrite tokenize_from_number in Htok by assumption.
    apply IH in Htok; auto.
    + pose proof (drop_num_length rest). lia.
    + apply Hnum; auto. unfold number_text. simpl. rewrite Hn.
      apply take_num_numchars.
  - rewrite tokenize_from_other in Htok by assumption.
    assert (Hrest : (List.length rest <= n)%nat) by lia.
    destruct (is_space ch); [eauto|].
    destruct (is_opchar ch) eqn:E; [apply IH in Htok; auto|].
    destruct (N.eqb ch (cu "(")); [apply IH in Htok; auto|].
    destruct (N.eqb ch (cu ")")); [apply IH in Htok; auto|].
    destruct (N.eqb ch (cu "%")); [apply IH in Htok; auto|discriminate].
Qed.

Lemma tokenize_from_chars (n : nat) :
  forall expr tokens,
    (List.length expr <= n)%nat ->
    match tokenize_from expr tokens with
    | ok _ => forallb is_calc_char expr = true
    | throw e =>
        exists pre c post,
          expr = pre ++ c :: post
          /\ forallb is_calc_char pre = true
          /\ is_calc_char c = false
          /\ e = InvalidCharacter c
    end.
Proof.
  induction n as [|n IH]; intros [|ch rest] tokens Hlen; simpl in Hlen;
    try lia; try reflexivity.
  destruct (is_numchar ch) eqn:Hn.
  - rewrite tokenize_from_number by assumption.
    assert (Hd : (List.length (drop_num rest) <= n)%nat)
      by (pose proof (drop_num_length rest); lia).
    specialize (IH (drop_num rest) (tokens ++ [number (ch :: take_num rest)]) Hd).
    assert (Hrun : forallb is_calc_char (ch :: take_num rest) = true).
    { apply forallb_forall. intros c [<-|Hc].
      - now apply calc_char_numchar.
      - now apply take_num_calc_chars in Hc. }
    destruct (tokenize_from (drop_num rest) _) as [out|e].
    + rewrite <- (take_drop_num rest).
      change (ch :: take_num rest ++ drop_num rest)
        with ((ch :: take_num rest) ++ drop_num rest).
      rewrite forallb_app, Hrun, IH. reflexivity.
    + destruct IH as (pre & c & post & E & Hpre & Hc & ->).
      exists ((ch :: take_num rest) ++ pre), c, post.
      repeat split; auto.
      * rewrite <- (take_drop_num rest) at 1. rewrite E.
        now rewrite <- app_assoc.
      * now rewrite forallb_app, Hrun, Hpre.
  - rewrite tokenize_from_other by assumption.
    assert (Hrest : (List.length rest <= n)%nat) by lia.
    assert (Hstep : is_calc_char ch = true ->
      forall tokens',
      match tokenize_from rest tokens' with
      | ok _ => forallb is_calc_char (ch :: rest) = true
      | throw e =>
          exists pre c post,
            ch :: rest = pre ++ c :: post
            /\ forallb is_calc_char pre = true
            /\ is_calc_char c = false
            /\ e = InvalidCharacter c
      end).
    { intros Hch tokens'. specialize (IH rest tokens' Hrest).
      destruct (tokenize_from rest tokens') as [out|e].
      - simpl. now rewrite Hch, IH.
      - destruct IH as (pre & c & post & -> & Hpre & Hc & ->).
        exists (ch :: pre), c, post. simpl. rewrite Hch, Hpre. auto. }
    destruct (is_space ch) eqn:E1;
      [apply Hstep; unfold is_calc_char; now rewrite E1|].
    destruct (is_opchar ch) eqn:E2;
      [apply Hstep; unfold is_calc_char; now rewrite E1, Hn, E2|].
    destruct (N.eqb ch (cu "(")) eqn:E3;
      [apply Hstep; unfold is_calc_char; now rewrite E1, Hn, E2, E3|].
    destruct (N.eqb ch (cu ")")) eqn:E4;
      [apply Hstep; unfold is_calc_char; now rewrite E1, Hn, E2, E3, E4|].
    destruct (N.eqb ch (cu "%")) eqn:E5;
      [apply Hstep; unfold is_calc_char; now rewrite E1, Hn, E2, E3, E4, E5|].
    exists [], ch, rest. repeat split. unfold is_calc_char.
    now rewrite E1, Hn, E2, E3, E4, E5.
Qed.

(** X3. [tokenize] accepts exactly the strings made of white space, digits,
    dots, the four operators, parentheses and percent signs; on any other
    string it throws the invalid-character error for the first character
    that is not one of these. *)
Theorem tokenize_alphabet (expr : jsstring) :
  ((exists tokens, tokenize expr = ok tokens) <-> forallb is_calc_char expr = true)
  /\ (forall e, tokenize expr = throw e ->
        exists pre c post,
          expr = pre ++ c :: post
          /\ forallb is_calc_char pre = true
          /\ is_calc_char c = false
          /\ e = InvalidCharacter c).
Proof.
  pose proof (tokenize_from_chars (List.length expr) expr [] (le_n _)) as H.
  fold (tokenize expr) in H. destruct (tokenize expr) as [tokens|e].
  - split; [split; eauto|discriminate].
  - split.
    + split; [intros [? ?]; discriminate|].
      intros Hall. destruct H as (pre & c & post & -> & _ & Hc & _).
      rewrite forallb_app in Hall. simpl in Hall. rewrite Hc in Hall.
      rewrite andb_false_r in Hall. discriminate.
    + intros e' He. injection He as <-. exact H.
Qed.

(** ** The operators that the tokenizer emits *)

Lemma opchar_cases (ch : N) :
  is_opchar ch = true ->
  ch = cu "+" \/ ch = cu "-" \/ ch = cu "*" \/ ch = cu "/".
Proof.
  unfold is_opchar. intros H.
  repeat (apply orb_true_iff in H as [H|H]); apply N.eqb_eq in H; auto.
Qed.

Lemma Forall_snoc {A : Type} (P : A -> Prop) (l : list A) (x : A) :
  Forall P l -> P x -> Forall P (l ++ [x]).
Proof. intros Hl Hx. apply Forall_app. split; auto. Qed.

Lemma tokenize_known_operators (expr : jsstring) (tokens : list token) :
  tokenize expr = ok tokens -> Forall (fun t => known_operator t = true) tokens.
Proof.
  apply (tokenize_from_invariant
           (Forall (fun t => known_operator t = true)))
    with (n := List.length expr); auto using Forall_snoc.
  intros toks ch H Hch. apply Forall_snoc; [|exact Hch].
  destruct (_ && _); auto using Forall_snoc.
Qed.

Lemma minus_snoc (tokens : list token) (t : token) :
  minus_has_operand tokens ->
  (t = operator (str "-") ->
   exists pre' t0, tokens = pre' ++ [t0] /\ left_operand t0 = true) ->
  minus_has_operand (tokens ++ [t]).
Proof.
  intros Hinv Ht pre post E.
  destruct (exists_last (l := operator (str "-") :: post)) as (l & x & El);
    [discriminate|].
  rewrite El, app_assoc in E. apply app_inj_tail in E as [E1 E2].
  destruct l as [|m l].
  - injection El as <- ->. rewrite app_nil_r in E1. subst pre. now apply Ht.
  - injection El as <- ->. now apply (Hinv pre l).
Qed.

Lemma unary_position_false (tokens : list token) :
  Forall (fun t => known_operator t = true) tokens ->
  unary_position tokens = false ->
  exists pre' t0, tokens = pre' ++ [t0] /\ left_operand t0 = true.
Proof.
  intros Hk. unfold unary_position.
  destruct tokens as [|t tokens] using rev_ind; [discriminate|].
  rewrite rev_app_distr. simpl. intros H.
  exists tokens, t. split; [reflexivity|].
  apply Forall_app in Hk as [_ Hk]. inversion Hk as [|? ? Ht _]; subst.
  destruct t as [v|v| | |]; try reflexivity; try discriminate.
  apply negb_false_iff, jsstring_eqb_eq in H. subst v. discriminate.
Qed.

(** X4. In the tokens of [tokenize], every ['-'] comes after a number, a
    right parenthesis or a percent: a ['-'] at the start, after an operator
    or after a left parenthesis has been given the number ["0"] before it.
    Every operator token is one of [+ - * /]. *)
Theorem tokenize_minus_operand (expr : jsstring) (tokens : list token) :
  tokenize expr = ok tokens ->
  minus_has_operand tokens
  /\ Forall (fun t => known_operator t = true) tokens.
Proof.
  intros H. split; [|now apply tokenize_known_operators with expr].
  cut (minus_has_operand tokens /\ Forall (fun t => known_operator t = true) tokens);
    [tauto|].
  revert H.
  apply (tokenize_from_invariant
           (fun toks => minus_has_operand toks
                        /\ Forall (fun t => known_operator t = true) toks))
    with (n := List.length expr); auto.
  - intros toks v [Hm Hk] _. split; [|now apply Forall_snoc].
    apply minus_snoc; [assumption|discriminate].
  - intros toks ch [Hm Hk] Hch.
    destruct (N.eqb ch (cu "-")) eqn:E; simpl.
    + apply N.eqb_eq in E. subst ch.
      destruct (unary_position toks) eqn:U.
      * split; [|auto using Forall_snoc].
        apply minus_snoc.
        -- apply minus_snoc; [assumption|discriminate].
        -- intros _. exists toks, (number (str "0")). auto.
      * split; [|auto using Forall_snoc].
        apply minus_snoc; [assumption|]. intros _.
        now apply unary_position_false.
    + split; [|now apply Forall_snoc].
      apply minus_snoc; [assumption|]. intros Heq.
      injection Heq as ->. discriminate.
  - intros toks [Hm Hk]. split; [|now apply Forall_snoc].
    apply minus_snoc; [assumption|discriminate].
  - intros toks [Hm Hk]. split; [|now apply Forall_snoc].
    apply minus_snoc; [assumption|discriminate].
  - intros toks [Hm Hk]. split; [|now apply Forall_snoc].
    apply minus_snoc; [assumption|discriminate].
  - split; [|constructor]. intros [|? ?] ? ?; discriminate.
Qed.

Lemma tokenize_minus_operand_witness :
  minus_has_operand
    [number (str "3"); operator (str "*"); number (str "0");
     operator (str "-"); number (str "2")].
Proof.
  exact (proj1 (tokenize_minus_operand (str "3*-2") _ eq_refl)).
Defined.

(** ** The evaluator's stack and errors *)

Lemma apply_operator_known (ch : N) (a b : JS.number) (e : error) :
  is_opchar ch = true -> apply_operator [ch] a b = throw e -> e = DivisionByZero.
Proof.
  intros Hch. unfold apply_operator.
  destruct (opchar_cases ch Hch) as [-> | [-> | [-> | ->]]]; simpl;
    try discriminate.
  destruct (JS.eqb b JS.zero); [|discriminate]. now intros [= <-].
Qed.

Lemma eval_step_known (stack : list JS.number) (t : token) (e : error) :
  known_operator t = true -> not_paren t = true ->
  eval_step stack t = throw e -> reachable_error e = true.
Proof.
  intros Hk Hp. destruct t as [v|v| | |]; simpl; try discriminate.
  - destruct (negb _); [|discriminate]. now intros [= <-].
  - destruct stack as [|b [|a stack]]; try (now intros [= <-]).
    destruct v as [|ch [|? ?]]; try discriminate.
    destruct (apply_operator [ch] a b) as [r|e'] eqn:E; [discriminate|].
    simpl. intros [= <-]. now rewrite (apply_operator_known _ _ _ _ Hk E).
  - destruct stack; [|discriminate]. now intros [= <-].
Qed.

Lemma eval_scan_known (rpn : list token) :
  forall stack e,
    Forall (fun t => known_operator t = true) rpn ->
    Forall (fun t => not_paren t = true) rpn ->
    eval_scan rpn stack = throw e -> reachable_error e = true.
Proof.
  induction rpn as [|t rpn IH]; intros stack e Hk Hp; simpl; [discriminate|].
  inversion Hk; inversion Hp; subst.
  destruct (eval_step stack t) as [stack'|e'] eqn:E; simpl.
  - now apply IH.
  - intros [= <-]. now apply eval_step_known in E.
Qed.

(** Each number pushes one value, each operator removes one, a percent
    keeps the height. *)
Lemma eval_scan_height (rpn : list token) :
  forall stack stack',
    eval_scan rpn stack = ok stack' ->
    (List.length stack' + List.length (filter is_operator rpn)
     = List.length stack + List.length (filter is_number rpn))%nat.
Proof.
  induction rpn as [|t rpn IH]; intros stack stack' H; simpl in H.
  - injection H as <-. simpl. lia.
  - apply bind_ok in H as (stack1 & Hstep & Hscan).
    apply IH in Hscan. destruct t as [v|o| | |]; simpl in Hstep |- *;
      try discriminate.
    + destruct (negb _); [discriminate|]. injection Hstep as <-.
      simpl in Hscan. lia.
    + destruct stack as [|b [|a stack]]; try discriminate.
      apply bind_ok in Hstep as (res & _ & Hres). injection Hres as <-.
      simpl in Hscan |- *. lia.
    + destruct stack as [|v stack]; [discriminate|]. injection Hstep as <-.
      simpl in Hscan |- *. lia.
Qed.

Lemma Permutation_filter_length {A : Type} (f : A -> bool) (l l' : list A) :
  Permutation l l' -> List.length (filter f l) = List.length (filter f l').
Proof.
  induction 1 as [|x l l' _ IH|x y l|l l' l'' _ IH1 _ IH2]; simpl.
  - reflexivity.
  - destruct (f x); simpl; congruence.
  - destruct (f x), (f y); reflexivity.
  - congruence.
Qed.

Lemma filter_not_paren_length (f : token -> bool) (l : list token) :
  f left_paren = false -> f right_paren = false ->
  List.length (filter f (filter not_paren l)) = List.length (filter f l).
Proof.
  intros Hl Hr. induction l as [|t l IH]; simpl; [reflexivity|].
  destruct t as [v|v| | |]; simpl.
  - destruct (f (number v)); simpl; congruence.
  - destruct (f (operator v)); simpl; congruence.
  - now rewrite Hl.
  - now rewrite Hr.
  - destruct (f percent); simpl; congruence.
Qed.

(** X5. A successful evaluation has balanced parentheses and exactly one
    more number token than operator tokens. *)
Theorem evaluate_shape (expr r : jsstring) (tokens : list token) :
  tokenize expr = ok tokens ->
  evaluate expr = ok r ->
  balanced tokens = true
  /\ List.length (filter is_number tokens)
     = S (List.length (filter is_operator tokens)).
Proof.
  intros Htok Hev. unfold evaluate in Hev. rewrite Htok in Hev. simpl in Hev.
  apply bind_ok in Hev as (rpn & Hrpn & Hev).
  apply bind_ok in Hev as (v & Hv & _).
  split.
  - pose proof (toRPN_depth tokens) as H. now rewrite Hrpn in H.
  - unfold evalRPN in Hv. apply bind_ok in Hv as (stack & Hscan & Hone).
    destruct stack as [|x [|? ?]]; try discriminate.
    apply eval_scan_height in Hscan. simpl in Hscan.
    apply toRPN_permutation in Hrpn.
    rewrite (Permutation_filter_length is_number _ _ Hrpn) in Hscan.
    rewrite (Permutation_filter_length is_operator _ _ Hrpn) in Hscan.
    rewrite !filter_not_paren_length in Hscan by reflexivity. lia.
Qed.

Lemma evaluate_shape_witness :
  balanced [number (str "2"); operator (str "+"); number (str "3")] = true
  /\ List.length (filter is_number
       [number (str "2"); operator (str "+"); number (str "3")])
     = S (List.length (filter is_operator
       [number (str "2"); operator (str "+"); number (str "3")])).
Proof.
  apply (evaluate_shape (str "2+3") (str "5")).
  - reflexivity.
  - vm_compute; reflexivity.
Defined.

Lemma toRPN_known (tokens rpn : list token) :
  Forall (fun t => known_operator t = true) tokens ->
  toRPN tokens = ok rpn ->
  Forall (fun t => known_operator t = true) rpn
  /\ Forall (fun t => not_paren t = true) rpn.
Proof.
  intros Hk H. apply toRPN_permutation in H.
  split; apply Forall_forall; intros t Ht;
    apply (Permutation_in _ H), filter_In in Ht as [Hin Hp]; auto.
  rewrite Forall_forall in Hk. auto.
Qed.

(** X6. Whatever the input string, an evaluation that fails does so with
    one of the errors for an invalid character, mismatched parentheses, an
    invalid number, a percent or an operator without operands, a division
    by zero, an invalid expression or a non-finite result: the errors for
    an unknown operator and for an unexpected token are never thrown. *)
Theorem evaluate_errors (expr : jsstring) (e : error) :
  evaluate expr = throw e -> reachable_error e = true.
Proof.
  unfold evaluate. intros H.
  destruct (tokenize expr) as [tokens|e1] eqn:Htok; simpl in H.
  - pose proof (tokenize_known_operators _ _ Htok) as Hk.
    destruct (toRPN tokens) as [rpn|e2] eqn:Hrpn; simpl in H.
    + destruct (toRPN_known _ _ Hk Hrpn) as [Hk' Hp'].
      destruct (evalRPN rpn) as [v|e3] eqn:Hv; simpl in H.
      * destruct (_ || _); [|discriminate]. now injection H as <-.
      * injection H as <-. unfold evalRPN in Hv.
        destruct (eval_scan rpn []) as [stack|e4] eqn:Hs; simpl in Hv.
        -- destruct stack as [|? [|? ?]]; try discriminate;
             now injection Hv as <-.
        -- injection Hv as <-. now apply eval_scan_known in Hs.
    + injection H as <-. pose proof (toRPN_depth tokens) as Hd.
      rewrite Hrpn in Hd. now destruct Hd as [-> _].
  - injection H as <-.
    pose proof (tokenize_from_chars (List.length expr) expr [] (le_n _)) as Hc.
    fold (tokenize expr) in Hc. rewrite Htok in Hc.
    now destruct Hc as (? & ? & ? & _ & _ & _ & ->).
Qed.

Lemma evaluate_errors_witness : reachable_error DivisionByZero = true.
Proof.
  apply (evaluate_errors (str "5/0")). vm_compute; reflexivity.
Defined.

(** ** White space and enclosing parentheses *)

Lemma tokenize_from_space (w : N) (s : jsstring) (tokens : list token) :
  is_space w = true -> tokenize_from (w :: s) tokens = tokenize_from s tokens.
Proof.
  intros Hw. rewrite tokenize_from_other by now apply space_not_numchar.
  now rewrite Hw.
Qed.

Lemma tokenize_from_spaces (ws s : jsstring) (tokens : list token) :
  forallb is_space ws = true ->
  tokenize_from (ws ++ s) tokens = tokenize_from s tokens.
Proof.
  induction ws as [|w ws IH]; simpl app; intros H; [reflexivity|].
  simpl in H. apply andb_true_iff in H as [Hw Hws].
  rewrite tokenize_from_space by assumption. auto.
Qed.

Lemma take_num_snoc (s : jsstring) (c : N) :
  is_numchar c = false -> take_num (s ++ [c]) = take_num s.
Proof.
  intros Hc. induction s as [|x s IH]; simpl; [now rewrite Hc|].
  destruct (is_numchar x); [now rewrite IH|reflexivity].
Qed.

Lemma drop_num_snoc (s : jsstring) (c : N) :
  is_numchar c = false -> drop_num (s ++ [c]) = drop_num s ++ [c].
Proof.
  intros Hc. induction s as [|x s IH]; simpl; [now rewrite Hc|].
  destruct (is_numchar x); [assumption|reflexivity].
Qed.

(** A character that is not of a number is tokenized after what comes
    before it, whatever that is. *)
Lemma tokenize_from_snoc (c : N) (n : nat) :
  is_numchar c = false ->
  forall expr tokens,
    (List.length expr <= n)%nat ->
    tokenize_from (expr ++ [c]) tokens
    = (toks <- tokenize_from expr tokens ;; tokenize_from [c] toks).
Proof.
  intros Hc. induction n as [|n IH]; intros [|ch rest] tokens Hlen;
    simpl in Hlen; try lia; try reflexivity.
  simpl app. destruct (is_numchar ch) eqn:Hn.
  - rewrite !tokenize_from_number by assumption.
    rewrite take_num_snoc, drop_num_snoc by assumption.
    apply IH. pose proof (drop_num_length rest). lia.
  - rewrite !(tokenize_from_other ch) by assumption.
    assert (Hrest : (List.length rest <= n)%nat) by lia.
    destruct (is_space ch); [auto|].
    destruct (is_opchar ch); [auto|].
    destruct (N.eqb ch (cu "(")); [auto|].
    destruct (N.eqb ch (cu ")")); [auto|].
    destruct (N.eqb ch (cu "%")); [auto|reflexivity].
Qed.

Lemma tokenize_from_trailing (ws : jsstring) :
  forallb is_space ws = true ->
  forall s tokens, tokenize_from (s ++ ws) tokens = tokenize_from s tokens.
Proof.
  induction ws as [|w ws IH]; intros H s tokens.
  - now rewrite app_nil_r.
  - simpl in H. apply andb_true_iff in H as [Hw Hws].
    change (w :: ws) with ([w] ++ ws). rewrite app_assoc, IH by assumption.
    rewrite (tokenize_from_snoc w (List.length s)); auto using space_not_numchar.
    destruct (tokenize_from s tokens) as [toks|e]; [|reflexivity].
    cbn [bind]. now apply tokenize_from_space.
Qed.

(** X7. White space before and after an expression changes neither its
    result nor its error, and an expression of white space only is an
    invalid expression. *)
Theorem evaluate_white_space (ws1 ws2 : jsstring) :
  forallb is_space ws1 = true -> forallb is_space ws2 = true ->
  (forall expr, evaluate (ws1 ++ expr ++ ws2) = evaluate expr)
  /\ evaluate ws1 = throw InvalidExpression.
Proof.
  intros H1 H2.
  assert (H : forall expr, evaluate (ws1 ++ expr ++ ws2) = evaluate expr).
  { intros expr. unfold evaluate, tokenize.
    now rewrite tokenize_from_spaces, tokenize_from_trailing. }
  split; [assumption|].
  unfold evaluate, tokenize. rewrite <- (app_nil_r ws1).
  now rewrite tokenize_from_spaces.
Qed.

Lemma evaluate_white_space_witness :
  evaluate (str " 2+3 ") = evaluate (str "2+3").
Proof.
  exact (proj1 (evaluate_white_space (str " ") (str " ") eq_refl eq_refl) (str "2+3")).
Defined.

Lemma unary_position_app (pre tokens : list token) :
  tokens <> [] \/ unary_position pre = true ->
  unary_position (pre ++ tokens) = unary_position tokens.
Proof.
  destruct tokens as [|t tokens] using rev_ind.
  - intros [H|H]; [congruence|]. now rewrite app_nil_r, H.
  - intros _. unfold unary_position.
    now rewrite app_assoc, !rev_app_distr.
Qed.

(** Tokens already pushed do not change what is pushed after them, but
    through the last of them. *)
Lemma tokenize_from_prefix (pre : list token) (n : nat) :
  forall expr tokens out,
    (List.length expr <= n)%nat ->
    tokens <> [] \/ unary_position pre = true ->
    tokenize_from expr tokens = ok out ->
    tokenize_from expr (pre ++ tokens) = ok (pre ++ out).
Proof.
  assert (Hne : forall (l : list token) x, l ++ [x] <> [] \/ unary_position pre = true).
  { intros l x. left. now destruct l. }
  induction n as [|n IH]; intros [|ch rest] tokens out Hlen Hc Htok;
    simpl in Hlen; try lia;
    try (simpl in Htok |- *; now injection Htok as <-).
  destruct (is_numchar ch) eqn:Hn.
  - rewrite tokenize_from_number in Htok |- * by assumption.
    rewrite <- app_assoc. apply IH; auto.
    pose proof (drop_num_length rest). lia.
  - rewrite tokenize_from_other in Htok |- * by assumption.
    assert (Hrest : (List.length rest <= n)%nat) by lia.
    destruct (is_space ch); [auto|].
    destruct (is_opchar ch).
    { rewrite unary_position_app by assumption.
      destruct (_ && _).
      - replace (((pre ++ tokens) ++ [number (str "0")]) ++ [operator [ch]])
          with (pre ++ ((tokens ++ [number (str "0")]) ++ [operator [ch]]))
          by now rewrite !app_assoc.
        apply IH; auto.
      - rewrite <- app_assoc. apply IH; auto. }
    destruct (N.eqb ch (cu "(")); [rewrite <- app_assoc; apply IH; auto|].
    destruct (N.eqb ch (cu ")")); [rewrite <- app_assoc; apply IH; auto|].
    destruct (N.eqb ch (cu "%")); [rewrite <- app_assoc; apply IH; auto|].
    discriminate.
Qed.

Lemma tokenize_wrapped (expr : jsstring) (tokens : list token) :
  tokenize expr = ok tokens ->
  tokenize (str "(" ++ expr ++ str ")") = ok (left_paren :: tokens ++ [right_paren]).
Proof.
  intros H. unfold tokenize. simpl app.
  rewrite tokenize_from_other by reflexivity. simpl.
  rewrite (tokenize_from_snoc (cu ")") (List.length expr)) by auto.
  pose proof (tokenize_from_prefix [left_paren] (List.length expr) expr []
                tokens (le_n _) (or_intror eq_refl) H) as P.
  simpl in P. rewrite P. reflexivity.
Qed.

Lemma pop_operators_base (o1 : jsstring) (stack base out : list token) :
  pop_operators o1 out (stack ++ left_paren :: base)
  = mk_rpn (output (pop_operators o1 out stack))
           (ops (pop_operators o1 out stack) ++ left_paren :: base).
Proof.
  revert out. induction stack as [|top stack IH]; intros out; simpl;
    [reflexivity|].
  destruct top as [v|o2| | |]; try reflexivity.
  destruct (pops o1 o2); [apply IH|reflexivity].
Qed.

Lemma pop_to_left_paren_base (stack base out : list token) (st : rpn_state) :
  pop_to_left_paren out stack = ok st ->
  pop_to_left_paren out (stack ++ base) = ok (mk_rpn (output st) (ops st ++ base)).
Proof.
  revert out. induction stack as [|top stack IH]; intros out H; simpl in H |- *;
    [discriminate|].
  destruct top as [v|o2| | |]; auto.
  now injection H as <-.
Qed.

(** A scan above a left parenthesis goes as it does on an empty stack. *)
Lemma rpn_scan_base (base : list token) (tokens : list token) :
  forall st st',
    rpn_scan tokens st = ok st' ->
    rpn_scan tokens (mk_rpn (output st) (ops st ++ left_paren :: base))
    = ok (mk_rpn (output st') (ops st' ++ left_paren :: base)).
Proof.
  induction tokens as [|t tokens IH]; intros st st' H; simpl in H |- *.
  - now injection H as <-.
  - apply bind_ok in H as (st1 & Hstep & Hscan).
    assert (E : rpn_step (mk_rpn (output st) (ops st ++ left_paren :: base)) t
                = ok (mk_rpn (output st1) (ops st1 ++ left_paren :: base))).
    { destruct t as [v|o1| | |]; simpl in Hstep |- *.
      - now injection Hstep as <-.
      - injection Hstep as <-. now rewrite pop_operators_base.
      - now injection Hstep as <-.
      - now apply pop_to_left_paren_base.
      - now injection Hstep as <-. }
    rewrite E. simpl. now apply IH.
Qed.

Lemma drain_close (stack out out' : list token) :
  drain out stack = ok out' ->
  pop_to_left_paren out (stack ++ [left_paren]) = ok (mk_rpn out' []).
Proof.
  revert out. induction stack as [|top stack IH]; intros out H; simpl in H |- *.
  - now injection H as <-.
  - destruct top as [v|o2| | |]; try discriminate; auto.
Qed.

Lemma rpn_scan_snoc (tokens : list token) (t : token) (st : rpn_state) :
  rpn_scan (tokens ++ [t]) st = (st' <- rpn_scan tokens st ;; rpn_step st' t).
Proof.
  revert st. induction tokens as [|x tokens IH]; intros st; simpl.
  - now destruct (rpn_step st t).
  - destruct (rpn_step st x); simpl; [apply IH|reflexivity].
Qed.

Lemma toRPN_wrapped (tokens rpn : list token) :
  toRPN tokens = ok rpn ->
  toRPN (left_paren :: tokens ++ [right_paren]) = ok rpn.
Proof.
  unfold toRPN. intros H. apply bind_ok in H as (st & Hscan & Hdrain).
  pose proof (rpn_scan_base [] tokens (mk_rpn [] []) st Hscan) as B.
  simpl in B. simpl. rewrite rpn_scan_snoc, B. simpl.
  now rewrite (drain_close _ _ _ Hdrain).
Qed.

(** X8. An expression that evaluates to a result evaluates to the same
    result within a pair of parentheses. *)
Theorem evaluate_wrapped (expr r : jsstring) :
  evaluate expr = ok r -> evaluate (str "(" ++ expr ++ str ")") = ok r.
Proof.
  unfold evaluate. intros H.
  apply bind_ok in H as (tokens & Htok & H).
  apply bind_ok in H as (rpn & Hrpn & H).
  rewrite (tokenize_wrapped _ _ Htok). simpl.
  rewrite (toRPN_wrapped _ _ Hrpn). exact H.
Qed.

Lemma evaluate_wrapped_witness : evaluate (str "(2+3*4)") = ok (str "14").
Proof.
  apply (evaluate_wrapped (str "2+3*4")). vm_compute; reflexivity.
Defined.

(** ** The result string and the state after an evaluation *)

Lemma decimal_digits_length (k : nat) :
  forall z acc,
    List.length (JS.decimal_digits k z acc) = (k + List.length acc)%nat.
Proof.
  induction k as [|k IH]; intros z acc; simpl; [reflexivity|].
  rewrite IH. simpl. lia.
Qed.

Lemma shortest_digits (fuel : nat) :
  forall x num den n0 k,
    k <= snd (fst (JS.shortest fuel x num den n0 k)).
Proof.
  induction fuel as [|fuel IH]; intros x num den n0 k; simpl;
    destruct (JS.candidate x num den n0 k) as [[n s]|]; simpl; try lia.
  specialize (IH x num den n0 (k + 1)). lia.
Qed.

Lemma format_nonempty (n k s : Z) : 0 < k -> JS.format n k s <> [].
Proof.
  intros Hk. unfold JS.format.
  pose proof (decimal_digits_length (Z.to_nat k) s []) as Hlen.
  destruct (JS.decimal_digits (Z.to_nat k) s []) as [|d ds];
    [simpl in Hlen; lia|].
  destruct (_ && _); [discriminate|].
  destruct (_ && _); [apply not_eq_sym, app_cons_not_nil|].
  destruct (_ && _); [discriminate|].
  destruct (k =? 1); discriminate.
Qed.

Lemma String_nonempty (x : JS.number) : JS.String x <> [].
Proof.
  destruct x as [s|s| |s m e]; unfold JS.String.
  - vm_compute. discriminate.
  - destruct s; vm_compute; discriminate.
  - vm_compute. discriminate.
  - set (num := if 0 <=? e then Z.pos m * 2 ^ e else Z.pos m).
    set (den := if 0 <=? e then 1 else 2 ^ (- e)).
    set (n0 := JS.magnitude 700 num den (JS.magnitude_start num den)).
    pose proof (shortest_digits 20 (S754_finite false m e) num den n0 1) as Hk.
    destruct (JS.shortest 20 (S754_finite false m e) num den n0 1) as [[n k] d].
    simpl in Hk. intros H. apply app_eq_nil in H as [_ H].
    revert H. apply format_nonempty. lia.
Qed.

Lemma evaluate_nonempty (expr r : jsstring) : evaluate expr = ok r -> r <> [].
Proof.
  unfold evaluate. intros H.
  apply bind_ok in H as (tokens & _ & H).
  apply bind_ok in H as (rpn & _ & H).
  apply bind_ok in H as (v & _ & H).
  destruct (_ || _); [discriminate|]. injection H as <-.
  apply String_nonempty.
Qed.

(** X9. What an evaluation does to the state: nothing when the input is
    empty; on success the input and the display become the result, which
    is never empty, and the expression is recorded with it; on failure the
    input is emptied, the display shows [Error] and nothing is recorded. *)
Theorem evaluateExpression_cases (c : calc) :
  (current c = [] -> evaluateExpression c = c)
  /\ (forall r,
        current c <> [] -> evaluate (current c) = ok r ->
        r <> []
        /\ evaluateExpression c
           = mk_calc r (push_history (history c) (current c) r) r)
  /\ (forall e,
        current c <> [] -> evaluate (current c) = throw e ->
        evaluateExpression c = mk_calc [] (history c) (str "Error")).
Proof.
  unfold evaluateExpression. split; [|split].
  - now intros ->.
  - intros r Hc Hr. pose proof (evaluate_nonempty _ _ Hr) as Hne.
    split; [assumption|].
    destruct (current c) as [|ch rest] eqn:E; [congruence|].
    rewrite Hr. unfold updateDisplay. cbn [current history].
    destruct r; [congruence|reflexivity].
  - intros e Hc He. destruct (current c) as [|ch rest] eqn:E; [congruence|].
    now rewrite He.
Qed.

(** ** The history *)

Lemma push_history_length (h : list (jsstring * jsstring)) (expr res : jsstring) :
  List.length (push_history h expr res)
  = if (List.length h <? 200)%nat then S (List.length h) else List.length h.
Proof.
  unfold push_history. rewrite length_app. simpl.
  replace (List.length h + 1)%nat with (S (List.length h)) by lia.
  destruct (Nat.ltb_spec 200 (S (List.length h))),
           (Nat.ltb_spec (List.length h) 200); try lia.
  - destruct h; simpl in *; [lia|]. rewrite length_app. simpl. lia.
  - rewrite length_app. simpl. lia.
Qed.

Lemma push_history_In (h : list (jsstring * jsstring)) (expr res : jsstring) x :
  In x (push_history h expr res) -> x = (expr, res) \/ In x h.
Proof.
  unfold push_history. intros H.
  assert (H' : In x (h ++ [(expr, res)])).
  { destruct (_ <? _)%nat; [|assumption].
    destruct (h ++ [(expr, res)]); [assumption|now right]. }
  apply in_app_or in H' as [H'|[H'|[]]]; auto.
Qed.

Lemma push_history_eq (h : list (jsstring * jsstring)) (expr res : jsstring) :
  push_history h expr res
  = (if (List.length h <? 200)%nat then h else tl h) ++ [(expr, res)].
Proof.
  unfold push_history. rewrite length_app. simpl.
  destruct (Nat.ltb_spec 200 (List.length h + 1)),
           (Nat.ltb_spec (List.length h) 200); try lia; try reflexivity.
  destruct h; [simpl in *; lia|reflexivity].
Qed.

(** X10. The history never grows beyond 200 entries. A successful
    evaluation appends its pair after the entries there were, all of them
    when they were fewer than 200, all but the oldest otherwise; an empty
    input or a failed evaluation leaves the history as it was. *)
Theorem history_bounded (c : calc) :
  (List.length (history c) <= 200)%nat ->
  (List.length (history (evaluateExpression c)) <= 200)%nat
  /\ (forall r, current c <> [] -> evaluate (current c) = ok r ->
        history (evaluateExpression c)
        = (if (List.length (history c) <? 200)%nat
           then history c else tl (history c)) ++ [(current c, r)])
  /\ (current c = [] \/ (exists e, evaluate (current c) = throw e) ->
        history (evaluateExpression c) = history c).
Proof.
  intros Hlen. unfold evaluateExpression.
  destruct (current c) as [|ch rest] eqn:E.
  - repeat split; auto. congruence.
  - destruct (evaluate (ch :: rest)) as [r|e] eqn:Hr; cbn [history updateDisplay].
    + split; [|split].
      * rewrite push_history_length.
        destruct (Nat.ltb_spec (List.length (history c)) 200); lia.
      * intros r' _ [= <-]. apply push_history_eq.
      * intros [H|[e H]]; discriminate.
    + repeat split; auto. discriminate.
Qed.

Lemma history_bounded_witness :
  history (evaluateExpression
             (mk_calc (str "2+3") (repeat (str "1", str "1") 200) (str "2+3")))
  = repeat (str "1", str "1") 199 ++ [(str "2+3", str "5")].
Proof.
  etransitivity.
  - apply (proj1 (proj2 (history_bounded
      (mk_calc (str "2+3") (repeat (str "1", str "1") 200) (str "2+3"))
      (le_n 200)))).
    + discriminate.
    + vm_compute; reflexivity.
  - reflexivity.
Defined.

(** X11. The history stays sound: if every recorded pair is an expression
    with the result of its evaluation, this still holds after an
    evaluation; and recalling a recorded (non-empty) expression and
    evaluating it puts the recorded result in the input and on the
    display, and leaves a sound history. *)
Theorem history_stays_sound (c : calc) :
  history_sound (history c) ->
  history_sound (history (evaluateExpression c))
  /\ (forall expr res,
        In (expr, res) (history c) -> expr <> [] ->
        current (evaluateExpression (recall expr c)) = res
        /\ display (evaluateExpression (recall expr c)) = res
        /\ history_sound (history (evaluateExpression (recall expr c)))).
Proof.
  intros Hs.
  assert (Hstep : forall c', history_sound (history c') ->
                             history_sound (history (evaluateExpression c'))).
  { intros c' Hs' expr res Hin. unfold evaluateExpression in Hin.
    destruct (current c') as [|ch rest] eqn:E; [now apply Hs'|].
    destruct (evaluate (ch :: rest)) as [r|e] eqn:Hr;
      cbn [history updateDisplay] in Hin; [|now apply Hs'].
    apply push_history_In in Hin as [[= -> ->]|Hin]; [assumption|now apply Hs']. }
  split; [now apply Hstep|].
  intros expr res Hin Hne. apply Hs in Hin.
  split; [|split].
  - unfold evaluateExpression, recall, updateDisplay, set_current.
    cbn [current]. destruct expr as [|ch rest]; [congruence|].
    rewrite Hin. reflexivity.
  - pose proof (evaluate_nonempty _ _ Hin) as Hres.
    unfold evaluateExpression, recall, updateDisplay, set_current.
    cbn [current]. destruct expr as [|ch rest]; [congruence|].
    rewrite Hin. cbn [display current]. destruct res; [congruence|reflexivity].
  - apply Hstep. exact Hs.
Qed.

Lemma history_stays_sound_witness :
  history_sound
    (history (evaluateExpression
       (mk_calc (str "1+1") [(str "2+3", str "5")] (str "1+1"))))
  /\ current (evaluateExpression
       (recall (str "2+3")
          (mk_calc (str "1+1") [(str "2+3", str "5")] (str "1+1"))))
     = str "5".
Proof.
  assert (H : history_sound [(str "2+3", str "5")]).
  { intros expr res [[= <- <-]|[]]. vm_compute; reflexivity. }
  pose proof (history_stays_sound
    (mk_calc (str "1+1") [(str "2+3", str "5")] (str "1+1")) H) as [H1 H2].
  split; [exact H1|].
  apply (H2 (str "2+3") (str "5")); [now left|discriminate].
Defined.

(** ** The pieces of the input *)

Lemma split_nonempty (s : jsstring) : split s <> [].
Proof.
  destruct s as [|ch s]; simpl; [discriminate|].
  destruct (is_sep ch); [discriminate|]. destruct (split s); discriminate.
Qed.

Lemma split_parts (s : jsstring) :
  split s = removelast (split s) ++ [last_part s].
Proof. apply app_removelast_last, split_nonempty. Qed.

Lemma split_snoc (s : jsstring) (c : N) :
  split (s ++ [c])
  = if is_sep c then split s ++ [[]]
    else removelast (split s) ++ [last_part s ++ [c]].
Proof.
  unfold last_part. induction s as [|x s IH]; simpl.
  - destruct (is_sep c); reflexivity.
  - pose proof (split_nonempty s) as Hne.
    destruct (is_sep x).
    + rewrite IH. destruct (is_sep c); [reflexivity|].
      destruct (split s) as [|p ps]; [congruence|reflexivity].
    + rewrite IH. destruct (split s) as [|p ps]; [congruence|].
      destruct (is_sep c); [reflexivity|].
      destruct ps as [|q qs]; reflexivity.
Qed.

Lemma last_part_snoc (s : jsstring) (c : N) :
  last_part (s ++ [c]) = if is_sep c then [] else last_part s ++ [c].
Proof.
  unfold last_part at 1. rewrite split_snoc.
  destruct (is_sep c); apply last_last.
Qed.

Lemma removelast_split_snoc (s : jsstring) (c : N) :
  removelast (split (s ++ [c]))
  = if is_sep c then split s else removelast (split s).
Proof.
  rewrite split_snoc. destruct (is_sep c); apply removelast_last.
Qed.

(** A string whose last piece is not empty ends with the last character
    of that piece. *)
Lemma last_part_inv (s part : jsstring) (x : N) :
  last_part s = part ++ [x] ->
  exists s', s = s' ++ [x] /\ is_sep x = false /\ last_part s' = part
             /\ removelast (split s') = removelast (split s).
Proof.
  intros H. destruct s as [|y s] using rev_ind.
  - destruct part; discriminate.
  - clear IHs. rewrite last_part_snoc in H.
    destruct (is_sep y) eqn:E; [destruct part; discriminate|].
    apply app_inj_tail in H as [H1 ->].
    exists s. rewrite removelast_split_snoc, E. auto.
Qed.

Lemma Forall_split (P : jsstring -> Prop) (s : jsstring) :
  Forall P (split s) <-> Forall P (removelast (split s)) /\ P (last_part s).
Proof.
  rewrite (split_parts s) at 1. rewrite Forall_app. split.
  - intros [H1 H2]. split; [assumption|]. now inversion H2.
  - intros [H1 H2]. auto.
Qed.

(** What a one-character value does to the pieces of the input. *)
Lemma appendValue_parts (ch : N) (c : calc) :
  let cur := current c in
  let cur' := current (appendValue [ch] c) in
  cur' = cur
  \/ (is_sep ch = true /\ cur' = cur ++ [ch] /\ split cur' = split cur ++ [[]])
  \/ (is_digit ch = true /\ last_part cur = str "0"
      /\ split cur' = removelast (split cur) ++ [[ch]])
  \/ (is_dot ch = true /\ last_part cur = []
      /\ cur' = cur ++ str "0."
      /\ split cur' = removelast (split cur) ++ [str "0."])
  \/ (is_sep ch = false
      /\ (is_digit ch = true -> last_part cur <> str "0")
      /\ (is_dot ch = true ->
          existsb is_dot (last_part cur) = false /\ last_part cur <> [])
      /\ cur' = cur ++ [ch]
      /\ split cur' = removelast (split cur) ++ [last_part cur ++ [ch]]).
Proof.
  intros cur cur'. subst cur cur'. unfold appendValue.
  cbn [single_digit].
  destruct (is_digit ch && jsstring_eqb (last_part (current c)) (str "0")) eqn:E0.
  { apply andb_true_iff in E0 as [Hd Hl]. apply jsstring_eqb_eq in Hl.
    right. right. left. repeat split; auto.
    cbn [updateDisplay set_current current].
    destruct (last_part_inv (current c) [] (cu "0") Hl)
      as (s' & Es & Hsep & Hlast & Hrem).
    rewrite Es at 1. rewrite removelast_last, split_snoc.
    assert (Hs : is_sep ch = false).
    { unfold is_digit in Hd. apply andb_true_iff in Hd as [H1 H2].
      apply N.leb_le in H1, H2. unfold is_sep, is_opchar, cu. simpl.
      repeat (apply orb_false_iff; split); apply N.eqb_neq; lia. }
    now rewrite Hs, Hlast, Hrem. }
  assert (Hdot : jsstring_eqb [ch] (str ".") = is_dot ch).
  { unfold is_dot. simpl. now rewrite andb_true_r. }
  rewrite Hdot.
  destruct (is_dot ch) eqn:Ed; cbn [andb].
  - apply N.eqb_eq in Ed. subst ch.
    destruct (existsb is_dot (last_part (current c))) eqn:Ex; [now left|].
    destruct (last_part (current c)) as [|y part] eqn:El; cbn [is_empty].
    + right. right. right. left.
      cbn [updateDisplay set_current current andb jsstring_eqb].
      change (jsstring_eqb (str "0.") (str "%")) with false. cbn [andb].
      cbn [updateDisplay set_current current].
      repeat split; auto.
      change (str "0.") with ([cu "0"] ++ [cu "."]).
      rewrite app_assoc, !split_snoc, last_part_snoc, El.
      change (is_sep (cu ".")) with false. change (is_sep (cu "0")) with false.
      cbn iota. now rewrite removelast_last.
    + right. right. right. right.
      change (jsstring_eqb [cu "."] (str "%")) with false. cbn [andb].
      cbn [updateDisplay set_current current].
      repeat split; auto; try discriminate.
      rewrite split_snoc, El. reflexivity.
  - assert (Hpct : jsstring_eqb [ch] (str "%") = N.eqb ch (cu "%")).
    { simpl. now rewrite andb_true_r. }
    rewrite Hpct.
    destruct (N.eqb ch (cu "%") && is_empty (current c)) eqn:Ep; [now left|].
    cbn [updateDisplay set_current current].
    destruct (is_sep ch) eqn:Es.
    + right. left. repeat split; auto. now rewrite split_snoc, Es.
    + right. right. right. right. repeat split; try discriminate; auto.
      * intros Hd Hl. rewrite Hd, Hl in E0. discriminate.
      * now rewrite split_snoc, Es.
Qed.

(** ** Typing keeps the input well formed *)

Lemma count_dots_snoc (part : jsstring) (x : N) :
  count_dots (part ++ [x])
  = (count_dots part + if is_dot x then 1 else 0)%nat.
Proof.
  unfold count_dots. rewrite filter_app, length_app. simpl.
  now destruct (is_dot x).
Qed.

Lemma no_dot_count (part : jsstring) :
  existsb is_dot part = false -> count_dots part = O.
Proof.
  unfold count_dots. induction part as [|x part IH]; simpl; [reflexivity|].
  destruct (is_dot x); [discriminate|]. exact IH.
Qed.

Lemma sep_not_numchar (ch : N) : is_sep ch = true -> is_numchar ch = false.
Proof.
  intros H. destruct (is_numchar ch) eqn:E; [|reflexivity].
  unfold is_sep, is_opchar in H.
  repeat (apply orb_true_iff in H as [H|H]); apply N.eqb_eq in H; subst ch;
    vm_compute in E; discriminate E.
Qed.

Lemma well_formed_cons (d : N) (t : jsstring) :
  well_formed_part (d :: t) = true
  <-> is_digit d = true /\ forallb is_numchar (d :: t) = true
      /\ one_dot (d :: t) = true /\ no_leading_zero (d :: t) = true.
Proof. cbn [well_formed_part]. rewrite !andb_true_iff. tauto. Qed.

Lemma no_leading_zero_snoc (d : N) (t : jsstring) (x : N) :
  t <> [] -> no_leading_zero ((d :: t) ++ [x]) = no_leading_zero (d :: t).
Proof. destruct t; [congruence|reflexivity]. Qed.

Lemma well_formed_prefix (part : jsstring) (x : N) :
  well_formed_part (part ++ [x]) = true -> well_formed_part part = true.
Proof.
  destruct part as [|d t]; [reflexivity|].
  change ((d :: t) ++ [x]) with (d :: (t ++ [x])). intros H.
  apply well_formed_cons in H as (Hd & Hn & Ho & Hz).
  change (d :: (t ++ [x])) with ((d :: t) ++ [x]) in Hn, Ho, Hz.
  apply well_formed_cons. repeat split; auto.
  - rewrite forallb_app in Hn. now apply andb_true_iff in Hn as [? _].
  - unfold one_dot in *. rewrite count_dots_snoc in Ho.
    apply Nat.leb_le in Ho. apply Nat.leb_le. lia.
  - destruct t as [|y t]; [reflexivity|].
    now rewrite no_leading_zero_snoc in Hz.
Qed.

Lemma well_formed_digit (part : jsstring) (ch : N) :
  is_digit ch = true -> part <> str "0" ->
  well_formed_part part = true -> well_formed_part (part ++ [ch]) = true.
Proof.
  intros Hc Hne. destruct part as [|d t].
  - intros _. apply well_formed_cons.
    unfold is_numchar, one_dot, count_dots. simpl.
    now rewrite Hc, (digit_not_dot ch Hc).
  - intros H. apply well_formed_cons in H as (Hd & Hn & Ho & Hz).
    change ((d :: t) ++ [ch]) with (d :: (t ++ [ch])).
    apply well_formed_cons.
    change (d :: (t ++ [ch])) with ((d :: t) ++ [ch]).
    repeat split; auto.
    + rewrite forallb_app, Hn. simpl. unfold is_numchar. now rewrite Hc.
    + unfold one_dot in *. rewrite count_dots_snoc, (digit_not_dot ch Hc).
      now rewrite Nat.add_0_r.
    + destruct t as [|y t]; [|now rewrite no_leading_zero_snoc].
      simpl. destruct (N.eqb_spec d 48) as [->|]; [|reflexivity].
      now destruct Hne.
Qed.

Lemma well_formed_dot (part : jsstring) :
  part <> [] -> existsb is_dot part = false ->
  well_formed_part part = true -> well_formed_part (part ++ [cu "."]) = true.
Proof.
  intros Hne Hno. destruct part as [|d t]; [congruence|]. intros H.
  apply well_formed_cons in H as (Hd & Hn & Ho & Hz).
  change ((d :: t) ++ [cu "."]) with (d :: (t ++ [cu "."])).
  apply well_formed_cons.
  change (d :: (t ++ [cu "."])) with ((d :: t) ++ [cu "."]).
  repeat split; auto.
  - now rewrite forallb_app, Hn.
  - unfold one_dot. now rewrite count_dots_snoc, (no_dot_count _ Hno).
  - destruct t as [|y t]; [|now rewrite no_leading_zero_snoc].
    simpl. now rewrite andb_false_r.
Qed.

Lemma typed_removelast (s : jsstring) : typed s -> typed (removelast s).
Proof.
  unfold typed. destruct s as [|x s] using rev_ind; [auto|]. clear IHs.
  rewrite removelast_last, split_snoc.
  destruct (is_sep x).
  - intros H. now apply Forall_app in H.
  - intros H. apply Forall_app in H as [H1 H2]. inversion H2; subst.
    apply Forall_split. split; [assumption|].
    now apply well_formed_prefix with x.
Qed.

Lemma appendValue_typed (ch : N) (c : calc) :
  is_digit ch || is_dot ch || is_sep ch = true ->
  typed (current c) -> typed (current (appendValue [ch] c)).
Proof.
  intros Hch Ht. unfold typed in *.
  pose proof (proj1 (Forall_split _ _) Ht) as [Hinit Hlast].
  destruct (appendValue_parts ch c)
    as [E|[(Hs & _ & E)|[(Hd & Hl & E)|[(Hd & Hl & _ & E)|(Hs & Hd & Hdot & _ & E)]]]];
    rewrite E; try assumption.
  - apply Forall_app. auto.
  - apply Forall_app. split; [assumption|]. constructor; [|constructor].
    unfold well_formed_part, is_numchar, one_dot, count_dots. simpl.
    now rewrite Hd, (digit_not_dot ch Hd).
  - apply Forall_app. split; [assumption|]. now constructor.
  - apply Forall_app. split; [assumption|]. constructor; [|constructor].
    rewrite Hs, orb_false_r in Hch.
    destruct (is_digit ch) eqn:Ed.
    + apply well_formed_digit; auto.
    + simpl in Hch. destruct (Hdot Hch) as [Hno Hne].
      apply N.eqb_eq in Hch. subst ch. now apply well_formed_dot.
Qed.

Lemma single_digit_inv (key : jsstring) :
  single_digit key = true -> exists ch, key = [ch] /\ is_digit ch = true.
Proof.
  destruct key as [|ch [|? ?]]; try discriminate. eauto.
Qed.

(** X12. Typing keeps the input well formed. If every piece of the input
    between operators, parentheses and percent signs is empty or is made
    of digits and at most one dot, begins with a digit and has no zero
    before its first digit, this still holds after any key that does not
    evaluate: a digit after a lone zero replaces it, a second dot is
    ignored, a dot at the start of a piece is typed as ["0."]. The empty
    input is well formed. *)
Theorem typing_keeps_well_formed (key : jsstring) (c : calc) :
  evaluates key = false ->
  typed (current c) ->
  typed (current (keydown key c)) /\ typed [].
Proof.
  intros Hev Ht. split; [|repeat constructor].
  unfold keydown.
  destruct (single_digit key) eqn:K0.
  { apply single_digit_inv in K0 as (ch & -> & Hd).
    apply appendValue_typed; [now rewrite Hd|assumption]. }
  destruct (jsstring_eqb key (str ".")) eqn:K1.
  { now apply (appendValue_typed (cu ".")). }
  destruct (jsstring_eqb key (str "+") || jsstring_eqb key (str "-")
            || jsstring_eqb key (str "*") || jsstring_eqb key (str "/")) eqn:K2.
  { repeat (apply orb_true_iff in K2 as [K2|K2]);
      apply jsstring_eqb_eq in K2; subst key;
      now apply appendValue_typed. }
  destruct (jsstring_eqb key (str "%")) eqn:K3.
  { now apply (appendValue_typed (cu "%")). }
  destruct (jsstring_eqb key (str "(") || jsstring_eqb key (str ")")) eqn:K4.
  { apply orb_true_iff in K4 as [K4|K4];
      apply jsstring_eqb_eq in K4; subst key;
      now apply appendValue_typed. }
  unfold evaluates in Hev. rewrite Hev.
  destruct (jsstring_eqb key (str "Backspace")).
  { cbn [backspace updateDisplay set_current current].
    now apply typed_removelast. }
  destruct (jsstring_eqb key (str "Escape")); [|assumption].
  repeat constructor.
Qed.

Lemma typing_keeps_well_formed_witness :
  typed (current (keydown (str "5") (mk_calc (str "1+0") [] (str "1+0")))).
Proof.
  apply (typing_keeps_well_formed (str "5") (mk_calc (str "1+0") [] (str "1+0"))).
  - reflexivity.
  - repeat constructor.
Defined.

(** ** The tokens of a well-formed input *)

Lemma drop_num_head (s : jsstring) :
  match drop_num s with [] => True | c :: _ => is_numchar c = false end.
Proof.
  induction s as [|x s IH]; simpl; [trivial|].
  destruct (is_numchar x) eqn:E; [exact IH|exact E].
Qed.

Lemma numchar_not_sep (ch : N) : is_numchar ch = true -> is_sep ch = false.
Proof.
  intros H. destruct (is_sep ch) eqn:E; [|reflexivity].
  apply sep_not_numchar in E. congruence.
Qed.

(** The run of a number and the first piece of what follows it make the
    first piece of a string. *)
Lemma split_run (s : jsstring) :
  exists part parts,
    split (drop_num s) = part :: parts
    /\ split s = (take_num s ++ part) :: parts.
Proof.
  induction s as [|x s IH].
  - exists [], []. auto.
  - cbn [drop_num take_num]. destruct (is_numchar x) eqn:E.
    + destruct IH as (part & parts & E1 & E2).
      exists part, parts. split; [assumption|].
      cbn [split]. now rewrite (numchar_not_sep x E), E2.
    + destruct (split (x :: s)) as [|part parts] eqn:Es.
      * now apply split_nonempty in Es.
      * exists part, parts. auto.
Qed.

Lemma well_formed_invariant (part : jsstring) :
  part <> [] -> well_formed_part part = true -> number_invariant part = true.
Proof.
  destruct part as [|d t]; [congruence|]. intros _ H.
  apply well_formed_cons in H as (Hd & _ & Ho & _).
  unfold number_invariant. fold (one_dot (d :: t)). rewrite Ho.
  simpl. now rewrite Hd.
Qed.

Lemma tokenize_from_typed (n : nat) :
  forall expr tokens out,
    (List.length expr <= n)%nat ->
    typed expr ->
    (forall v, In (number v) tokens -> number_invariant v = true) ->
    tokenize_from expr tokens = ok out ->
    forall v, In (number v) out -> number_invariant v = true.
Proof.
  assert (Hpush : forall (tokens : list token) t,
    (forall v, In (number v) tokens -> number_invariant v = true) ->
    match t with number v => number_invariant v = true | _ => True end ->
    forall v, In (number v) (tokens ++ [t]) -> number_invariant v = true).
  { intros tokens t H Ht v Hv. apply in_app_or in Hv as [Hv|[->|[]]]; auto. }
  induction n as [|n IH]; intros [|ch rest] tokens out Hlen Ht Hok Htok;
    simpl in Hlen; try lia;
    try (simpl in Htok; injection Htok as <-; assumption).
  unfold typed in Ht.
  destruct (is_numchar ch) eqn:Hn.
  - rewrite tokenize_from_number in Htok by assumption.
    destruct (split_run rest) as (part & parts & E1 & E2).
    cbn [split] in Ht. rewrite (numchar_not_sep ch Hn), E2 in Ht.
    inversion Ht as [|? ? Hwf Hparts]; subst.
    assert (Hpart : part = []).
    { pose proof (drop_num_head rest) as Hh.
      destruct (drop_num rest) as [|c r]; [now injection E1 as <-|].
      cbn [split] in E1. destruct (is_sep c) eqn:Ec; [now injection E1 as <-|].
      destruct (split r); injection E1 as <- <-;
        apply well_formed_cons in Hwf as (_ & Hall & _);
        change (ch :: take_num rest ++ c :: ?p) with ((ch :: take_num rest) ++ c :: p) in Hall;
        rewrite forallb_app in Hall; apply andb_true_iff in Hall as [_ Hall];
        simpl in Hall; rewrite Hh in Hall; discriminate. }
    subst part. rewrite app_nil_r in Hwf.
    refine (IH (drop_num rest) _ out _ _ _ Htok).
    + pose proof (drop_num_length rest). lia.
    + unfold typed. rewrite E1. constructor; [reflexivity|assumption].
    + apply Hpush; [assumption|]. now apply well_formed_invariant.
  - rewrite tokenize_from_other in Htok by assumption.
    assert (Hrest : (List.length rest <= n)%nat) by lia.
    assert (Hsep : is_sep ch = true).
    { destruct (is_sep ch) eqn:Es; [reflexivity|]. cbn [split] in Ht.
      rewrite Es in Ht. destruct (split rest); inversion Ht as [|? ? Hwf _];
        apply well_formed_cons in Hwf as (_ & Hall & _);
        simpl in Hall; rewrite Hn in Hall; discriminate. }
    cbn [split] in Ht. rewrite Hsep in Ht. inversion Ht as [|? ? _ Ht']; subst.
    destruct (is_space ch); [eauto|].
    destruct (is_opchar ch).
    { refine (IH rest _ out Hrest Ht' _ Htok). apply Hpush; [|exact I].
      destruct (_ && _); [|assumption]. apply Hpush; [assumption|reflexivity]. }
    destruct (N.eqb ch (cu "("));
      [refine (IH rest _ out Hrest Ht' _ Htok); apply Hpush; [assumption|exact I]|].
    destruct (N.eqb ch (cu ")"));
      [refine (IH rest _ out Hrest Ht' _ Htok); apply Hpush; [assumption|exact I]|].
    destruct (N.eqb ch (cu "%"));
      [refine (IH rest _ out Hrest Ht' _ Htok); apply Hpush; [assumption|exact I]|].
    discriminate.
Qed.

Lemma calc_char_sep (x : N) : is_sep x = true -> is_calc_char x = true.
Proof.
  unfold is_calc_char, is_sep. intros H.
  destruct (is_space x), (is_numchar x); cbn [orb]; auto.
Qed.

Lemma typed_calc_chars (s : jsstring) :
  Forall (fun part => forallb is_numchar part = true) (split s) ->
  forallb is_calc_char s = true.
Proof.
  induction s as [|x s IH]; cbn [split forallb]; [reflexivity|].
  destruct (is_sep x) eqn:Es.
  - intros H. inversion H; subst. rewrite IH by assumption.
    now rewrite (calc_char_sep x Es).
  - pose proof (split_nonempty s) as Hne.
    destruct (split s) as [|p ps]; [congruence|].
    intros H. inversion H as [|? ? Hp Hps]; subst. simpl in Hp.
    apply andb_true_iff in Hp as [Hx Hp].
    rewrite IH by now constructor.
    now rewrite (calc_char_numchar x Hx).
Qed.

(** X13. A well-formed input is always tokenized, and each of its number
    tokens has at most one dot and at least one digit: on what the keys
    can type, the invariant of the data model holds. *)
Theorem typed_tokens (expr : jsstring) :
  typed expr ->
  exists tokens,
    tokenize expr = ok tokens
    /\ forall v, In (number v) tokens -> number_invariant v = true.
Proof.
  intros Ht.
  assert (Hc : forallb is_calc_char expr = true).
  { apply typed_calc_chars. unfold typed in Ht.
    eapply Forall_impl; [|exact Ht]. intros [|d t] H; [reflexivity|].
    now apply well_formed_cons in H as (_ & Hall & _). }
  pose proof (tokenize_from_chars (List.length expr) expr [] (le_n _)) as H.
  fold (tokenize expr) in H.
  destruct (tokenize expr) as [tokens|e] eqn:E.
  - exists tokens. split; [reflexivity|].
    apply (tokenize_from_typed (List.length expr) expr [] tokens); auto.
  - destruct H as (pre & c & post & -> & _ & Hbad & _).
    rewrite forallb_app in Hc. simpl in Hc. rewrite Hbad in Hc.
    rewrite andb_false_r in Hc. discriminate.
Qed.

Lemma typed_tokens_witness :
  exists tokens,
    tokenize (str "0.5+12") = ok tokens
    /\ forall v, In (number v) tokens -> number_invariant v = true.
Proof.
  apply (typed_tokens (str "0.5+12")). repeat constructor.
Defined.

(** ** The display *)

Lemma updateDisplay_ok (c : calc) : display_ok (updateDisplay c).
Proof. left. reflexivity. Qed.

Lemma appendValue_display (val : jsstring) (c : calc) :
  display_ok c -> display_ok (appendValue val c).
Proof.
  intros H. unfold appendValue.
  destruct (_ && _); [apply updateDisplay_ok|].
  destruct (_ && _); [assumption|].
  destruct (_ && _); [assumption|apply updateDisplay_ok].
Qed.

Lemma evaluateExpression_display (c : calc) :
  display_ok c -> display_ok (evaluateExpression c).
Proof.
  intros H. unfold evaluateExpression.
  destruct (current c) as [|ch rest]; [assumption|].
  destruct (evaluate (ch :: rest)); [apply updateDisplay_ok|].
  right. auto.
Qed.

(** X14. The display follows the input: if the display shows the input
    (["0"] for the empty one), or shows [Error] over an input emptied by a
    failed evaluation, then this still holds after any key, any click on a
    button and any recall from the history. *)
Theorem display_follows_input (c : calc) :
  display_ok c ->
  (forall key, display_ok (keydown key c))
  /\ (forall action val, display_ok (click action val c))
  /\ (forall expr, display_ok (recall expr c)).
Proof.
  intros H. split; [|split].
  - intros key. unfold keydown, backspace, clearAll.
    repeat match goal with
           | |- display_ok (if ?b then _ else _) => destruct b
           end;
      auto using appendValue_display, evaluateExpression_display,
                 updateDisplay_ok.
  - intros action val. unfold click, backspace, clearAll.
    repeat match goal with
           | |- display_ok (if ?b then _ else _) => destruct b
           end;
      try destruct val;
      auto using appendValue_display, evaluateExpression_display,
                 updateDisplay_ok.
  - intros expr. apply updateDisplay_ok.
Qed.

Lemma display_follows_input_witness :
  display_ok (keydown (str "%") (mk_calc [] [] (str "Error"))).
Proof.
  apply (display_follows_input (mk_calc [] [] (str "Error"))).
  right. auto.
Defined.

(** X15. Backspace undoes the typing of one character that is neither a
    digit nor a dot, but for a percent sign on the empty input, which is
    not typed at all. *)
Theorem backspace_undoes (ch : N) (c : calc) :
  is_digit ch = false -> is_dot ch = false ->
  (ch = cu "%" -> current c <> []) ->
  current (appendValue [ch] c) = current c ++ [ch]
  /\ current (backspace (appendValue [ch] c)) = current c.
Proof.
  intros Hd Hdot Hp.
  assert (E : current (appendValue [ch] c) = current c ++ [ch]).
  { unfold appendValue. cbn [single_digit]. rewrite Hd. cbn [andb].
    assert (E1 : jsstring_eqb [ch] (str ".") = false).
    { change (jsstring_eqb [ch] (str ".")) with (is_dot ch && true).
      now rewrite Hdot. }
    rewrite E1. cbn [andb].
    assert (E2 : jsstring_eqb [ch] (str "%") && is_empty (current c) = false).
    { change (jsstring_eqb [ch] (str "%")) with (N.eqb ch (cu "%") && true).
      destruct (N.eqb_spec ch (cu "%")) as [Hpc|]; [|reflexivity].
      destruct (current c); [now destruct (Hp Hpc)|reflexivity]. }
    rewrite E2. reflexivity. }
  split; [assumption|].
  cbn [backspace updateDisplay set_current current].
  rewrite E. apply removelast_last.
Qed.

Lemma backspace_undoes_witness :
  current (backspace (appendValue [cu "+"] (mk_calc (str "12") [] (str "12"))))
  = str "12".
Proof.
  apply (backspace_undoes (cu "+") (mk_calc (str "12") [] (str "12")));
    try reflexivity.
  discriminate.
Defined.

(** ** Percent, precedence and the value of a binary expression *)

(** X16. A percent written right after a number stays right after it in
    the postfix sequence, whatever surrounds them: the output is what was
    output for the tokens before the number, then the number, then the
    percent, then the rest. The evaluator then replaces the number by its
    hundredth. *)
Theorem percent_binds_number (pre post out : list token) (v : jsstring) :
  toRPN (pre ++ number v :: percent :: post) = ok out ->
  (exists st after,
     rpn_scan pre (mk_rpn [] []) = ok st
     /\ out = output st ++ number v :: percent :: after)
  /\ (forall stack rest,
        JS.isFinite (JS.Number v) = true ->
        eval_scan (number v :: percent :: rest) stack
        = eval_scan rest (JS.div (JS.Number v) hundred :: stack)).
Proof.
  intros H. split.
  - unfold toRPN in H. apply bind_ok in H as (final & Hscan & Hdrain).
    apply rpn_scan_app in Hscan as (st & Hpre & Hpost). simpl in Hpost.
    destruct (rpn_scan_spec operand (fun t Ht => Ht) pre (mk_rpn [] []) st
                (Forall_nil _) Hpre) as (Hst & _).
    destruct (rpn_scan_spec operand (fun t Ht => Ht) post
                (mk_rpn ((output st ++ [number v]) ++ [percent]) (ops st))
                final Hst Hpost) as (Hfinal & _ & ext1 & E1).
    destruct (drain_spec operand (fun t Ht => Ht) _ _ _ Hfinal Hdrain)
      as (_ & ext2 & E2).
    exists st, (ext1 ++ ext2). split; [assumption|]. rewrite E2, E1. simpl.
    now rewrite <- !app_assoc.
  - intros stack rest Hfin. simpl. now rewrite Hfin.
Qed.

Lemma percent_binds_number_witness :
  exists st after,
    rpn_scan [number (str "1"); percent; operator (str "+")] (mk_rpn [] [])
    = ok st
    /\ [number (str "1"); percent; number (str "1"); percent; operator (str "+")]
       = output st ++ number (str "1") :: percent :: after.
Proof.
  exact (proj1 (percent_binds_number
    [number (str "1"); percent; operator (str "+")] []
    [number (str "1"); percent; number (str "1"); percent; operator (str "+")]
    (str "1") eq_refl)).
Defined.

(** X17. Of two operators between three numbers, the first is applied
    first unless the second has the higher precedence: [a o1 b o2 c]
    becomes [a b o1 c o2] when the precedence of [o2] is at most that of
    [o1], and [a b c o2 o1] otherwise. *)
Theorem precedence_of_two (a b c o1 o2 : jsstring) (p1 p2 : Z) :
  precedence o1 = Some p1 -> precedence o2 = Some p2 ->
  toRPN [number a; operator o1; number b; operator o2; number c]
  = ok (if p2 <=? p1
        then [number a; number b; operator o1; number c; operator o2]
        else [number a; number b; number c; operator o2; operator o1]).
Proof.
  intros H1 H2. unfold toRPN. cbn [rpn_scan rpn_step bind pop_operators
    output ops app].
  assert (E : pops o2 o1 = (p2 <=? p1)).
  { unfold pops. rewrite (precedence_left_assoc _ _ H2), H1, H2. simpl.
    apply orb_false_r. }
  rewrite E. destruct (p2 <=? p1); reflexivity.
Qed.

Lemma precedence_of_two_witness :
  toRPN [number (str "2"); operator (str "+"); number (str "3");
         operator (str "*"); number (str "4")]
  = ok [number (str "2"); number (str "3"); number (str "4");
        operator (str "*"); operator (str "+")].
Proof.
  exact (precedence_of_two (str "2") (str "3") (str "4") (str "+") (str "*")
           1 2 eq_refl eq_refl).
Defined.

Lemma take_num_run (a rest : jsstring) (c : N) :
  forallb is_numchar a = true -> is_numchar c = false ->
  take_num (a ++ c :: rest) = a /\ drop_num (a ++ c :: rest) = c :: rest.
Proof.
  intros Ha Hc. induction a as [|x a IH]; simpl.
  - now rewrite Hc.
  - simpl in Ha. apply andb_true_iff in Ha as [Hx Ha]. rewrite Hx.
    destruct (IH Ha) as [-> ->]. auto.
Qed.

Lemma take_num_all (a : jsstring) :
  forallb is_numchar a = true -> take_num a = a /\ drop_num a = [].
Proof.
  intros Ha. induction a as [|x a IH]; simpl; [auto|].
  simpl in Ha. apply andb_true_iff in Ha as [Hx Ha]. rewrite Hx.
  destruct (IH Ha) as [-> ->]. auto.
Qed.

Lemma opchar_plain (ch : N) :
  is_opchar ch = true -> is_space ch = false /\ is_numchar ch = false.
Proof.
  intros H. destruct (opchar_cases ch H) as [-> | [-> | [-> | ->]]];
    split; reflexivity.
Qed.

(** A number, an operator and a number make three tokens. *)
Lemma tokenize_binary (a b : jsstring) (op : N) :
  number_text a = true -> number_text b = true -> is_opchar op = true ->
  tokenize (a ++ op :: b) = ok [number a; operator [op]; number b].
Proof.
  intros Ha Hb Hop. destruct (opchar_plain op Hop) as [Hs Hn].
  destruct a as [|x a]; [discriminate|]. destruct b as [|y b]; [discriminate|].
  unfold number_text in Ha, Hb. simpl in Ha, Hb.
  apply andb_true_iff in Ha as [Hx Ha]. apply andb_true_iff in Hb as [Hy Hb].
  unfold tokenize. simpl app.
  rewrite tokenize_from_number by assumption.
  destruct (take_num_run a (y :: b) op Ha Hn) as [-> ->].
  rewrite tokenize_from_other by assumption. rewrite Hs, Hop.
  replace (unary_position ([] ++ [number (x :: a)])) with false by reflexivity.
  rewrite andb_false_r.
  rewrite tokenize_from_number by assumption.
  destruct (take_num_all b Hb) as [-> ->]. reflexivity.
Qed.

(** X18. The value of a binary expression: for two number texts [a] and
    [b] and an operator, [a op b] evaluates to the string of the rounded
    result of the operator on the two numbers; it fails with the
    invalid-number error when one of the texts is not a finite number,
    with the error of the operator (a division by zero) when it has one,
    and with the math error when the result is not finite. *)
Theorem evaluate_binary (a b : jsstring) (op : N) :
  number_text a = true -> number_text b = true -> is_opchar op = true ->
  evaluate (a ++ op :: b)
  = if JS.isFinite (JS.Number a) && JS.isFinite (JS.Number b) then
      match apply_operator [op] (JS.Number a) (JS.Number b) with
      | ok v =>
          if JS.isFinite v then ok (JS.String (round12 v)) else throw MathError
      | throw e => throw e
      end
    else throw InvalidNumber.
Proof.
  intros Ha Hb Hop. unfold evaluate.
  rewrite (tokenize_binary a b op Ha Hb Hop). cbn [bind].
  change (toRPN [number a; operator [op]; number b])
    with (ok (A := list token) [number a; number b; operator [op]]).
  unfold evalRPN. cbn [bind eval_scan eval_step].
  destruct (JS.isFinite (JS.Number a)); cbn [negb bind andb]; [|reflexivity].
  destruct (JS.isFinite (JS.Number b)); cbn [negb bind andb]; [|reflexivity].
  destruct (apply_operator [op] (JS.Number a) (JS.Number b)) as [v|e];
    cbn [bind]; [|reflexivity].
  destruct v as [s|s| |s m e]; reflexivity.
Qed.

Lemma evaluate_binary_witness : evaluate (str "7/2") = ok (str "3.5").
Proof.
  etransitivity.
  - apply (evaluate_binary (str "7") (str "2") (cu "/")); reflexivity.
  - vm_compute; reflexivity.
Defined.
